(** * FilteredImage: the image item of harbour-filters

    A shallow embedding of [src/models/filteredimage.cpp]: the EXIF
    orientation transform [rotate], and the member functions of the
    [FilteredImage] scene-graph item (load, filter application, commit,
    save, paint-node synchronisation), followed by the properties the
    specification states about them. *)

From Stdlib Require Import Ascii String DecimalString.
From Stdlib Require Import List Bool Arith ZArith Lia Permutation.
From Stdlib Require Decimal DecimalPos DecimalZ.
Import ListNotations.

Local Open Scope string_scope.
Local Open Scope nat_scope.
Local Open Scope list_scope.

(* ================================================================== *)
(** ** Pixel buffers (the part of [QImage] the item relies on) *)
(* ================================================================== *)

(** A pixel is a [QRgb] value (an unsigned 32-bit quadruple); the item
    never looks inside one. *)
Definition QRgb := N.

(** A [QImage] is a grid of pixels, stored row by row (scan lines), with
    its dimensions. *)
Record QImage := mkImage {
  width  : nat;
  height : nat;
  scanLines : list (list QRgb)
}.

(** [QImage()] : the null image. *)
Definition QImage_null : QImage := mkImage 0 0 [].

(** [QImage::isNull()].  Qt allocates no pixel data for an image with a
    zero dimension, so such an image is null. *)
Definition isNull (img : QImage) : bool :=
  (width img =? 0) || (height img =? 0).

(** The scan lines agree with the stated dimensions. *)
Definition rect (w h : nat) (g : list (list QRgb)) : Prop :=
  length g = h /\ Forall (fun r => length r = w) g.

Definition wf_image (img : QImage) : Prop :=
  rect (width img) (height img) (scanLines img).

(** Decidable form of [wf_image], to evaluate on concrete images. *)
Definition wf_imageb (img : QImage) : bool :=
  (length (scanLines img) =? height img)
  && forallb (fun r => length r =? width img) (scanLines img).

(** [QImage::mirrored(horizontal, vertical)]: a horizontal flip reverses
    every scan line, a vertical flip reverses the order of the scan
    lines. *)
Definition mirrored (horizontal vertical : bool) (img : QImage) : QImage :=
  let g1 := if horizontal then map (@rev QRgb) (scanLines img)
            else scanLines img in
  let g2 := if vertical then rev g1 else g1 in
  mkImage (width img) (height img) g2.

(** Pairing a scan line with a list of columns: the i-th pixel of the
    line is put on top of the i-th column. *)
Fixpoint zip_cons (r : list QRgb) (cols : list (list QRgb))
  : list (list QRgb) :=
  match r, cols with
  | x :: r', c :: cols' => (x :: c) :: zip_cons r' cols'
  | _, _ => []
  end.

(** The columns of a grid of width [w], each read top to bottom. *)
Fixpoint transpose (w : nat) (g : list (list QRgb)) : list (list QRgb) :=
  match g with
  | [] => repeat [] w
  | r :: rs => zip_cons r (transpose w rs)
  end.

(** Quarter turns, as [QImage::transformed] performs them for a pure
    rotation matrix.  Clockwise: scan line [y] of the result is column
    [y] of the source read bottom to top. *)
Definition rotated90 (img : QImage) : QImage :=
  mkImage (height img) (width img)
          (map (@rev QRgb) (transpose (width img) (scanLines img))).

(** Half turn. *)
Definition rotated180 (img : QImage) : QImage :=
  mkImage (width img) (height img)
          (rev (map (@rev QRgb) (scanLines img))).

(** Anticlockwise: scan line [y] of the result is column [w-1-y] of the
    source read top to bottom. *)
Definition rotated270 (img : QImage) : QImage :=
  mkImage (height img) (width img)
          (rev (transpose (width img) (scanLines img))).

(** [QTransform trans; trans.rotate(angle); src.transformed(trans)], with
    the angle in degrees (positive is clockwise, the y axis pointing
    down).  Only whole quarter turns are modelled, which are the only
    angles the item uses; they map pixels exactly.  Any other angle is
    outside the model and leaves the image as it is. *)
Definition transformed_rotate (angle : Z) (img : QImage) : QImage :=
  let a := (angle mod 360)%Z in
  if (a =? 0)%Z then img
  else if (a =? 90)%Z then rotated90 img
  else if (a =? 180)%Z then rotated180 img
  else if (a =? 270)%Z then rotated270 img
  else img.

(* ================================================================== *)
(** ** The orientation transform *)
(* ================================================================== *)

(** Modelled from the spec: the enumeration
    [NemoImageMetadata::Orientation] is declared in a third-party header
    that is not part of the sources.  Its eight enumerators are the ones
    [rotate] and [setSource] name (the identity orientation and the seven
    other EXIF orientations); [Unrecognized] stands for any other integer
    value the C++ enumeration type can hold. *)
Inductive Orientation :=
| TopLeft | TopRight | BottomRight | BottomLeft
| LeftTop | RightTop | RightBottom | LeftBottom
| Unrecognized (code : Z).

(** The eight orientation cases. *)
Definition orientations : list Orientation :=
  [TopLeft; TopRight; BottomRight; BottomLeft;
   LeftTop; RightTop; RightBottom; LeftBottom].

(** One [QImage] call made by [rotate]. *)
Inductive ImageOp :=
| Mirrored (horizontal vertical : bool)
| Transformed (angle : Z).

Definition applyOp (op : ImageOp) (img : QImage) : QImage :=
  match op with
  | Mirrored h v => mirrored h v img
  | Transformed angle => transformed_rotate angle img
  end.

(** The calls each branch of the [switch] in [rotate] makes, in order. *)
Definition rotate_ops (orientation : Orientation) : list ImageOp :=
  match orientation with
  | TopRight    => [Mirrored true false]
  | BottomRight => [Mirrored true true]
  | BottomLeft  => [Mirrored false true]
  | LeftTop     => [Transformed 90; Mirrored true false]
  | RightTop    => [Transformed 90]
  | RightBottom => [Transformed (-90); Mirrored true false]
  | LeftBottom  => [Transformed (-90)]
  | _           => []
  end.

Definition runOps (ops : list ImageOp) (img : QImage) : QImage :=
  fold_left (fun acc op => applyOp op acc) ops img.

(** [static QImage rotate(const QImage &src, Orientation orientation)] *)
Definition rotate (src : QImage) (orientation : Orientation) : QImage :=
  runOps (rotate_ops orientation) src.

(* ================================================================== *)
(** ** The item and its collaborators *)
(* ================================================================== *)

(** The filter collaborator, as far as the item uses it: the object's
    identity (the pointer the item stores and connects to), the result of
    [parameterList()], and whether [applyFilter(image)] accepts the
    request.  The filtered pixels arrive later through the
    [filterApplied] signal. *)
Record AbstractImageFilter := mkFilter {
  filter_ptr : nat;
  parameterList : list string;
  filter_applyFilter : QImage -> bool
}.

(** What a member function does to the outside: the signals the item
    emits, the slot the constructor connects to [imageChanged], the calls
    made on the filter, and the calls made on the file system. *)
Inductive Event :=
| sourceChanged (source : string)
| imageChanged (image : QImage)
| isApplyingFilterChanged (value : bool)
| imageSaved (filename : string)
| update
| resetParameters (filter : nat)
| applyFilterRequest (filter : nat) (image : QImage)
| mkdir (dir name : string)
| save (path : string) (image : QImage) (format : string).

(** The notifications among the events. *)
Definition is_notification (e : Event) : bool :=
  match e with
  | sourceChanged _ | imageChanged _
  | isApplyingFilterChanged _ | imageSaved _ => true
  | _ => false
  end.

(** The data members of [FilteredImage], the implicit size it sets on
    its [QQuickItem] base, and the filters whose [filterApplied] signal
    is connected to the item's slot. *)
Record Item := mkItem {
  m_source : string;
  m_image : QImage;
  m_filteredImage : QImage;
  m_filter : option AbstractImageFilter;
  m_isApplyingFilter : bool;
  m_imageChanged : bool;
  implicitWidth : Z;
  implicitHeight : Z;
  connected : list nat
}.

Definition set_m_source v (s : Item) : Item :=
  mkItem v (m_image s) (m_filteredImage s) (m_filter s)
         (m_isApplyingFilter s) (m_imageChanged s)
         (implicitWidth s) (implicitHeight s) (connected s).
Definition set_m_image v (s : Item) : Item :=
  mkItem (m_source s) v (m_filteredImage s) (m_filter s)
         (m_isApplyingFilter s) (m_imageChanged s)
         (implicitWidth s) (implicitHeight s) (connected s).
Definition set_m_filteredImage v (s : Item) : Item :=
  mkItem (m_source s) (m_image s) v (m_filter s)
         (m_isApplyingFilter s) (m_imageChanged s)
         (implicitWidth s) (implicitHeight s) (connected s).
Definition set_m_filter v (s : Item) : Item :=
  mkItem (m_source s) (m_image s) (m_filteredImage s) v
         (m_isApplyingFilter s) (m_imageChanged s)
         (implicitWidth s) (implicitHeight s) (connected s).
Definition set_m_isApplyingFilter v (s : Item) : Item :=
  mkItem (m_source s) (m_image s) (m_filteredImage s) (m_filter s)
         v (m_imageChanged s)
         (implicitWidth s) (implicitHeight s) (connected s).
Definition set_m_imageChanged v (s : Item) : Item :=
  mkItem (m_source s) (m_image s) (m_filteredImage s) (m_filter s)
         (m_isApplyingFilter s) v
         (implicitWidth s) (implicitHeight s) (connected s).
Definition setImplicitWidth v (s : Item) : Item :=
  mkItem (m_source s) (m_image s) (m_filteredImage s) (m_filter s)
         (m_isApplyingFilter s) (m_imageChanged s)
         v (implicitHeight s) (connected s).
Definition setImplicitHeight v (s : Item) : Item :=
  mkItem (m_source s) (m_image s) (m_filteredImage s) (m_filter s)
         (m_isApplyingFilter s) (m_imageChanged s)
         (implicitWidth s) v (connected s).
Definition set_connected v (s : Item) : Item :=
  mkItem (m_source s) (m_image s) (m_filteredImage s) (m_filter s)
         (m_isApplyingFilter s) (m_imageChanged s)
         (implicitWidth s) (implicitHeight s) v.

(** A member function: it reads and updates the item, and produces events
    in order. *)
Definition M (A : Type) : Type := Item -> A * Item * list Event.

Definition ret {A} (a : A) : M A := fun s => (a, s, []).

Definition bind {A B} (m : M A) (k : A -> M B) : M B :=
  fun s =>
    let '(a, s1, e1) := m s in
    let '(b, s2, e2) := k a s1 in
    (b, s2, e1 ++ e2).

Definition get : M Item := fun s => (s, s, []).
Definition modify (f : Item -> Item) : M unit := fun s => (tt, f s, []).
Definition call (e : Event) : M unit := fun s => (tt, s, [e]).

Notation "x <- m ;; k" := (bind m (fun x => k))
  (at level 61, m at next level, right associativity).
Notation "m ;; k" := (bind m (fun _ => k))
  (at level 61, right associativity).

(** [emit signal(...)].  The constructor connects [imageChanged] to the
    item's [update()] slot, so that slot runs at every emission. *)
Definition emit (e : Event) : M unit :=
  match e with
  | imageChanged _ => call e ;; call update
  | _ => call e
  end.

(** The item after a call, and the events of the call. *)
Definition state_after {A} (m : M A) (s : Item) : Item := snd (fst (m s)).
Definition events_of {A} (m : M A) (s : Item) : list Event := snd (m s).
Definition result_of {A} (m : M A) (s : Item) : A := fst (fst (m s)).

(** The constructor: no filter, not applying.  It does not assign
    [m_imageChanged]; the flag is taken to be down here, and no property
    below depends on that choice. *)
Definition FilteredImage_new : Item :=
  mkItem "" QImage_null QImage_null None false false 0 0 [].

(** [QString::number(qlonglong)]: the decimal digits, after a minus sign
    for a negative number. *)
Definition QString_number (n : Z) : string :=
  NilZero.string_of_int (Z.to_int n).

(** The GPU node of the item: the image its texture was created from (if
    it has a texture), its rectangle, and whether material and geometry
    were marked dirty. *)
Record QSGSimpleTextureNode := mkNode {
  texture : option QImage;
  node_rect : Z * Z * Z * Z;
  markedDirty : bool
}.

Definition QSGSimpleTextureNode_new : QSGSimpleTextureNode :=
  mkNode None (0, 0, 0, 0)%Z false.

Section FilteredImage.

(** The platform the item runs on: the image decoder, the metadata
    reader, the pictures directory, whether that directory has a
    [filters] subdirectory, whether creating one succeeds, and the
    clock. *)
Variable QImageReader_read : string -> QImage.
Variable meta_orientation : string -> Orientation.
Variable picturesLocation : string.
Variable has_filters_dir : bool.
Variable mkdir_succeeds : bool.
Variable currentMSecsSinceEpoch : Z.

Definition Orientation_eqb (a b : Orientation) : bool :=
  match a, b with
  | TopLeft, TopLeft | TopRight, TopRight
  | BottomRight, BottomRight | BottomLeft, BottomLeft
  | LeftTop, LeftTop | RightTop, RightTop
  | RightBottom, RightBottom | LeftBottom, LeftBottom => true
  | Unrecognized c, Unrecognized d => (c =? d)%Z
  | _, _ => false
  end.

(** [QString FilteredImage::source() const] *)
Definition source : M string :=
  s <- get ;; ret (m_source s).

(** [void FilteredImage::setSource(const QString &source)] *)
Definition setSource (source : string) : M unit :=
  s <- get ;;
  if negb (String.eqb (m_source s) source) then
    modify (set_m_source source) ;;
    modify (set_m_image (QImageReader_read source)) ;;
    (if negb (Orientation_eqb (meta_orientation source) TopLeft) then
       s1 <- get ;;
       modify (set_m_image (rotate (m_image s1) (meta_orientation source)))
     else ret tt) ;;
    s2 <- get ;;
    modify (setImplicitWidth (Z.of_nat (width (m_image s2)))) ;;
    modify (setImplicitHeight (Z.of_nat (height (m_image s2)))) ;;
    modify (set_m_imageChanged true) ;;
    emit (sourceChanged source) ;;
    emit (imageChanged (m_image s2))
  else ret tt.

(** [bool FilteredImage::isApplyingFilter()] *)
Definition isApplyingFilter : M bool :=
  s <- get ;; ret (m_isApplyingFilter s).

(** [QImage FilteredImage::image() const] *)
Definition image : M QImage :=
  s <- get ;;
  ret (if isNull (m_filteredImage s) then m_image s else m_filteredImage s).

(** [void FilteredImage::setIsApplyingFilter(bool value)] *)
Definition setIsApplyingFilter (value : bool) : M unit :=
  s <- get ;;
  if negb (Bool.eqb (m_isApplyingFilter s) value) then
    modify (set_m_isApplyingFilter value) ;;
    emit (isApplyingFilterChanged value)
  else ret tt.

(** [void FilteredImage::resetFilter()] *)
Definition resetFilter : M unit :=
  s <- get ;;
  match m_filter s with
  | Some f => call (resetParameters (filter_ptr f))
  | None => ret tt
  end ;;
  modify (set_m_filteredImage (m_image s)) ;;
  modify (set_m_imageChanged true) ;;
  s1 <- get ;;
  emit (imageChanged (m_filteredImage s1)) ;;
  setIsApplyingFilter false.

(** [disconnect(m_filter,0,this,0)] and [connect(m_filter,...)] *)
Definition disconnect (p : nat) : M unit :=
  modify (fun s => set_connected
                     (filter (fun q => negb (q =? p)) (connected s)) s).
Definition connect (p : nat) : M unit :=
  modify (fun s => set_connected (connected s ++ [p]) s).

(** [void FilteredImage::applyFilter(AbstractImageFilter *filter)] *)
Definition applyFilter (filter : option AbstractImageFilter) : M unit :=
  s <- get ;;
  match m_filter s with
  | Some old => disconnect (filter_ptr old)
  | None => ret tt
  end ;;
  modify (set_m_filter filter) ;;
  match filter with
  | Some f =>
      connect (filter_ptr f) ;;
      match parameterList f with
      | [] =>
          call (applyFilterRequest (filter_ptr f) (m_image s)) ;;
          if filter_applyFilter f (m_image s)
          then setIsApplyingFilter true
          else ret tt
      | _ :: _ => resetFilter
      end
  | None => resetFilter
  end.

(** [void FilteredImage::reApplyFilter()] *)
Definition reApplyFilter : M unit :=
  s <- get ;;
  match m_filter s with
  | Some f =>
      call (applyFilterRequest (filter_ptr f) (m_image s)) ;;
      if filter_applyFilter f (m_image s)
      then setIsApplyingFilter true
      else ret tt
  | None => ret tt
  end.

(** [void FilteredImage::applyCurrentFilter()] *)
Definition applyCurrentFilter : M unit :=
  s <- get ;;
  if negb (isNull (m_filteredImage s)) then
    modify (set_m_image (m_filteredImage s)) ;;
    modify (set_m_filteredImage QImage_null)
  else ret tt.

(** [void FilteredImage::saveImage()] *)
Definition saveImage : M unit :=
  applyCurrentFilter ;;
  (if negb has_filters_dir
   then call (mkdir picturesLocation "filters")
   else ret tt) ;;
  let dir := if has_filters_dir || mkdir_succeeds
             then (picturesLocation ++ "/filters")%string
             else picturesLocation in
  let filename := (QString_number currentMSecsSinceEpoch ++ ".jpg")%string in
  s <- get ;;
  call (save (dir ++ "/" ++ filename)%string (m_image s) "JPG") ;;
  emit (imageSaved filename).

(** The buffer [updatePaintNode] points [image] at. *)
Definition paintedImage (s : Item) : QImage :=
  if negb (isNull (m_filteredImage s)) then m_filteredImage s else m_image s.

(** [QSGNode *FilteredImage::updatePaintNode(QSGNode *oldNode, ...)] *)
Definition updatePaintNode (oldNode : option QSGSimpleTextureNode)
  : M (option QSGSimpleTextureNode) :=
  s <- get ;;
  let image := paintedImage s in
  if isNull image then ret None
  else
    let node := match oldNode with
                | Some n => n
                | None => QSGSimpleTextureNode_new
                end in
    if m_imageChanged s
       || match texture node with None => true | Some _ => false end
    then
      modify (set_m_imageChanged false) ;;
      ret (Some (mkNode (Some image)
                        (0, 0, implicitWidth s, implicitHeight s)%Z
                        true))
    else ret (Some node).

(** [void FilteredImage::filterApplied(const QImage &image)] *)
Definition filterApplied (image : QImage) : M unit :=
  modify (set_m_filteredImage image) ;;
  modify (set_m_imageChanged true) ;;
  s1 <- get ;;
  emit (imageChanged (m_filteredImage s1)) ;;
  setIsApplyingFilter false.

(** The filter with pointer [p] emits [filterApplied(image)]: the slot
    runs once for every connection from that filter. *)
Fixpoint deliver_to (conns : list nat) (p : nat) (image : QImage) : M unit :=
  match conns with
  | [] => ret tt
  | q :: rest =>
      (if q =? p then filterApplied image else ret tt) ;;
      deliver_to rest p image
  end.

Definition filter_emits_filterApplied (p : nat) (image : QImage) : M unit :=
  s <- get ;; deliver_to (connected s) p image.

End FilteredImage.

(* ================================================================== *)
(** ** Vocabulary of the specification *)
(* ================================================================== *)

(** A flip (horizontal, vertical, or both). *)
Definition is_flip (op : ImageOp) : bool :=
  match op with
  | Mirrored h v => h || v
  | Transformed _ => false
  end.

(** A rotation by 90 or by -90 degrees. *)
Definition is_quarter_turn (op : ImageOp) : bool :=
  match op with
  | Mirrored _ _ => false
  | Transformed a => (a =? 90)%Z || (a =? -90)%Z
  end.

(** An orientation case composes a rotation with a flip when its branch
    makes both kinds of call. *)
Definition composes_rotation_with_flip (o : Orientation) : bool :=
  existsb is_quarter_turn (rotate_ops o) && existsb is_flip (rotate_ops o).

(** The geometric inverse of one call: a flip undoes itself, a rotation
    is undone by the rotation through the opposite angle. *)
Definition inverseOp (op : ImageOp) : ImageOp :=
  match op with
  | Mirrored h v => Mirrored h v
  | Transformed a => Transformed (- a)
  end.

(** The geometric inverse of a sequence of calls: the inverse calls, last
    one first. *)
Definition inverseOps (ops : list ImageOp) : list ImageOp :=
  map inverseOp (rev ops).

(** The geometric inverse of the orientation transform. *)
Definition rotate_inverse (img : QImage) (o : Orientation) : QImage :=
  runOps (inverseOps (rotate_ops o)) img.

(** The orientation whose transform undoes the transform of [o]: the two
    plain quarter turns undo each other, every other case undoes
    itself. *)
Definition inverse_orientation (o : Orientation) : Orientation :=
  match o with
  | RightTop => LeftBottom
  | LeftBottom => RightTop
  | _ => o
  end.

(** File names of the shape [<integer>.jpg]: an optional minus sign, one
    or more decimal digits, and the extension. *)
Definition is_digit (c : ascii) : bool :=
  (48 <=? nat_of_ascii c) && (nat_of_ascii c <=? 57).

Fixpoint digits_then_jpg (seen_digit : bool) (s : string) : bool :=
  match s with
  | EmptyString => false
  | String c rest =>
      if is_digit c then digits_then_jpg true rest
      else seen_digit && String.eqb s ".jpg"
  end.

Definition is_integer_jpg (s : string) : bool :=
  match s with
  | String "-"%char rest => digits_then_jpg false rest
  | _ => digits_then_jpg false s
  end.

(** The integer a string of decimal digits (after an optional minus
    sign) denotes. *)
Definition integer_of_string (s : string) : option Z :=
  option_map Z.of_int (NilZero.int_of_string s).

(** The save-completed notifications among the events. *)
Definition is_imageSaved (e : Event) : bool :=
  match e with
  | imageSaved _ => true
  | _ => false
  end.

(** The states of the filter state machine in which nothing is pending:
    the displayed buffer is the base image and the item is not
    applying. *)
Definition displayed (s : Item) : QImage := result_of image s.

Definition Idle (s : Item) : Prop :=
  displayed s = m_image s /\ m_isApplyingFilter s = false.

(** A concrete platform and concrete items, to evaluate the model on. *)
Module Sample.

Definition px (n : N) : QRgb := n.

(** A 3 x 2 picture. *)
Definition photo : QImage :=
  mkImage 3 2 [[px 1; px 2; px 3]; [px 4; px 5; px 6]].

(** A 2 x 2 picture. *)
Definition sepia : QImage :=
  mkImage 2 2 [[px 7; px 8]; [px 9; px 10]].

(** A 1 x 2 picture. *)
Definition portrait : QImage :=
  mkImage 1 2 [[px 11]; [px 12]].

Definition read (source : string) : QImage :=
  if String.eqb source "a.jpg" then photo
  else if String.eqb source "b.jpg" then portrait
  else QImage_null.

Definition orientation (source : string) : Orientation :=
  if String.eqb source "a.jpg" then RightTop else TopLeft.

(** A filter without parameters that declines every request. *)
Definition declining : AbstractImageFilter :=
  mkFilter 1 [] (fun _ => false).

(** A filter without parameters that accepts every request. *)
Definition accepting : AbstractImageFilter :=
  mkFilter 2 [] (fun _ => true).

(** A filter with one parameter. *)
Definition parameterized : AbstractImageFilter :=
  mkFilter 3 ["radius"] (fun _ => true).

(** An item showing [photo] with a filtered result pending while a
    filter is still applying. *)
Definition busy : Item :=
  mkItem "a.jpg" photo sepia (Some accepting) true false 3 2 [2].


(** An item that has loaded [photo] and has no filter. *)
Definition loaded : Item :=
  mkItem "a.jpg" photo QImage_null None false false 3 2 [].

End Sample.

(* ================================================================== *)
(** ** Vocabulary for the further properties *)
(* ================================================================== *)

(** The orientation cases whose branch turns the image on its side. *)
Definition transposing (o : Orientation) : bool :=
  match o with
  | LeftTop | RightTop | RightBottom | LeftBottom => true
  | _ => false
  end.

(** All the pixels of an image, scan line after scan line. *)
Definition pixels (img : QImage) : list QRgb := concat (scanLines img).

(** The image mirrored along its main diagonal. *)
Definition transposed (img : QImage) : QImage :=
  mkImage (height img) (width img) (transpose (width img) (scanLines img)).

(** A symmetry of the rectangle: an optional diagonal mirroring followed
    by an optional horizontal and an optional vertical flip. *)
Record Symmetry := mkSymmetry {
  diagonal : bool;
  horizontal : bool;
  vertical : bool
}.

Definition act (c : Symmetry) (img : QImage) : QImage :=
  mirrored (horizontal c) (vertical c)
           (if diagonal c then transposed img else img).

(** The symmetry each branch of [rotate] performs. *)
Definition symmetry_of (o : Orientation) : Symmetry :=
  match o with
  | TopRight    => mkSymmetry false true false
  | BottomRight => mkSymmetry false true true
  | BottomLeft  => mkSymmetry false false true
  | LeftTop     => mkSymmetry true false false
  | RightTop    => mkSymmetry true true false
  | RightBottom => mkSymmetry true true true
  | LeftBottom  => mkSymmetry true false true
  | _           => mkSymmetry false false false
  end.

Definition orientation_of (c : Symmetry) : Orientation :=
  match c with
  | mkSymmetry false false false => TopLeft
  | mkSymmetry false true false => TopRight
  | mkSymmetry false true true => BottomRight
  | mkSymmetry false false true => BottomLeft
  | mkSymmetry true false false => LeftTop
  | mkSymmetry true true false => RightTop
  | mkSymmetry true true true => RightBottom
  | mkSymmetry true false true => LeftBottom
  end.

(** The symmetry [c1] followed by the symmetry [c2]. *)
Definition compose_symmetry (c1 c2 : Symmetry) : Symmetry :=
  mkSymmetry
    (xorb (diagonal c1) (diagonal c2))
    (xorb (horizontal c2)
          (if diagonal c2 then vertical c1 else horizontal c1))
    (xorb (vertical c2)
          (if diagonal c2 then horizontal c1 else vertical c1)).

(** The orientation case that does what the case [o1] followed by the
    case [o2] does. *)
Definition compose_orientation (o1 o2 : Orientation) : Orientation :=
  orientation_of (compose_symmetry (symmetry_of o1) (symmetry_of o2)).

(** What the host can do with the item: call one of its member
    functions, or (being a filter) emit [filterApplied]. *)
Inductive Call :=
| call_setSource (source : string)
| call_resetFilter
| call_applyFilter (filter : option AbstractImageFilter)
| call_reApplyFilter
| call_applyCurrentFilter
| call_saveImage (has_filters_dir mkdir_succeeds : bool) (now : Z)
| call_updatePaintNode (oldNode : option QSGSimpleTextureNode)
| signal_filterApplied (filter : nat) (image : QImage).

Section Calls.

Variable QImageReader_read : string -> QImage.
Variable meta_orientation : string -> Orientation.
Variable picturesLocation : string.

Definition perform (c : Call) : M unit :=
  match c with
  | call_setSource source =>
      setSource QImageReader_read meta_orientation source
  | call_resetFilter => resetFilter
  | call_applyFilter filter => applyFilter filter
  | call_reApplyFilter => reApplyFilter
  | call_applyCurrentFilter => applyCurrentFilter
  | call_saveImage has_dir mkdir_ok now =>
      saveImage picturesLocation has_dir mkdir_ok now
  | call_updatePaintNode oldNode => updatePaintNode oldNode ;; ret tt
  | signal_filterApplied p image => filter_emits_filterApplied p image
  end.

(** The item after a sequence of calls. *)
Fixpoint run_calls (cs : list Call) (s : Item) : Item :=
  match cs with
  | [] => s
  | c :: cs' => run_calls cs' (state_after (perform c) s)
  end.

End Calls.

(** The item listens to exactly the filter it holds: one connection to
    it, or none when it holds no filter. *)
Definition connection_invariant (s : Item) : Prop :=
  connected s = match m_filter s with
                | Some f => [filter_ptr f]
                | None => []
                end.

(** The applying-changed and the image-changed notifications among the
    events. *)
Definition is_isApplyingFilterChanged (e : Event) : bool :=
  match e with
  | isApplyingFilterChanged _ => true
  | _ => false
  end.

Definition is_imageChanged (e : Event) : bool :=
  match e with
  | imageChanged _ => true
  | _ => false
  end.

Definition is_update (e : Event) : bool :=
  match e with
  | update => true
  | _ => false
  end.

Definition is_sourceChanged (e : Event) : bool :=
  match e with
  | sourceChanged _ => true
  | _ => false
  end.


(** A call that loads a picture into an item that never loaded
    one. *)
Definition is_load (c : Call) : bool :=
  match c with
  | call_setSource source => negb (String.eqb source "")
  | _ => false
  end.

(** The string given to the last [setSource] among the calls (the empty
    string if there is none). *)
Definition last_source (cs : list Call) : string :=
  fold_left (fun acc c => match c with
                          | call_setSource source => source
                          | _ => acc
                          end) cs "".

(** The pixel size of the orientation-corrected decode of a source. *)
Definition decoded_size
           (read : string -> QImage) (orient : string -> Orientation)
           (source : string) : Z * Z :=
  (Z.of_nat (width (rotate (read source) (orient source))),
   Z.of_nat (height (rotate (read source) (orient source)))).

(** The values carried by the applying-changed and by the source-changed
    notifications among the events, in order. *)
Definition flag_notifications (events : list Event) : list bool :=
  flat_map (fun e => match e with
                     | isApplyingFilterChanged v => [v]
                     | _ => []
                     end) events.

Definition source_notifications (events : list Event) : list string :=
  flat_map (fun e => match e with
                     | sourceChanged v => [v]
                     | _ => []
                     end) events.

(** Every notified value differs from the value before it, starting
    from the value [before] the call. *)
Fixpoint each_is_a_change {V : Type} (eqb : V -> V -> bool)
         (before : V) (vs : list V) : bool :=
  match vs with
  | [] => true
  | v :: rest => negb (eqb before v) && each_is_a_change eqb v rest
  end.

(** The notified values [vs] report the way from the value [before] to
    the value [after]: each is a change, and the last one is the value
    [after] (which is [before] if nothing was notified). *)
Definition reports {V : Type} (eqb : V -> V -> bool)
           (before : V) (vs : list V) (after : V) : Prop :=
  each_is_a_change eqb before vs = true /\ after = last vs before.

(** A member function whose applying-changed and source-changed
    notifications report what it does to the two properties. *)
Definition tracks {A : Type} (m : M A) : Prop :=
  forall s,
    reports Bool.eqb (m_isApplyingFilter s)
            (flag_notifications (events_of m s))
            (m_isApplyingFilter (state_after m s))
    /\ reports String.eqb (m_source s)
               (source_notifications (events_of m s))
               (m_source (state_after m s)).

(* ================================================================== *)
(** ** Filters that reply from inside the call *)
(* ================================================================== *)

(** The item calls [m_filter->applyFilter(m_image)] after it has
    connected the filter's [filterApplied] signal to its slot.  A filter
    that works synchronously emits that signal before the call returns,
    so that the slot runs in the middle of [applyFilter] or
    [reApplyFilter].  Below are these two member functions with the call
    into the filter spelled out in this way: [emits_inside f image] lists
    the images the filter [f] signals from inside [applyFilter(image)]
    (none for a filter that replies later, which is the case the
    definitions above describe). *)
Module Reentrant.
Section Reentrant.

Variable emits_inside : AbstractImageFilter -> QImage -> list QImage.

(** The filter [p] emits [filterApplied] once for each image. *)
Fixpoint signal_all (p : nat) (images : list QImage) : M unit :=
  match images with
  | [] => ret tt
  | image :: rest =>
      filter_emits_filterApplied p image ;; signal_all p rest
  end.

(** [f->applyFilter(image)] *)
Definition filter_call (f : AbstractImageFilter) (image : QImage) : M bool :=
  call (applyFilterRequest (filter_ptr f) image) ;;
  signal_all (filter_ptr f) (emits_inside f image) ;;
  ret (filter_applyFilter f image).

(** [void FilteredImage::applyFilter(AbstractImageFilter *filter)] *)
Definition applyFilter (filter : option AbstractImageFilter) : M unit :=
  s <- get ;;
  match m_filter s with
  | Some old => disconnect (filter_ptr old)
  | None => ret tt
  end ;;
  modify (set_m_filter filter) ;;
  match filter with
  | Some f =>
      connect (filter_ptr f) ;;
      match parameterList f with
      | [] =>
          accepted <- filter_call f (m_image s) ;;
          if accepted then setIsApplyingFilter true else ret tt
      | _ :: _ => resetFilter
      end
  | None => resetFilter
  end.

(** [void FilteredImage::reApplyFilter()] *)
Definition reApplyFilter : M unit :=
  s <- get ;;
  match m_filter s with
  | Some f =>
      accepted <- filter_call f (m_image s) ;;
      if accepted then setIsApplyingFilter true else ret tt
  | None => ret tt
  end.

Variable QImageReader_read : string -> QImage.
Variable meta_orientation : string -> Orientation.
Variable picturesLocation : string.

Definition perform (c : Call) : M unit :=
  match c with
  | call_setSource source =>
      setSource QImageReader_read meta_orientation source
  | call_resetFilter => resetFilter
  | call_applyFilter filter => applyFilter filter
  | call_reApplyFilter => reApplyFilter
  | call_applyCurrentFilter => applyCurrentFilter
  | call_saveImage has_dir mkdir_ok now =>
      saveImage picturesLocation has_dir mkdir_ok now
  | call_updatePaintNode oldNode => updatePaintNode oldNode ;; ret tt
  | signal_filterApplied p image => filter_emits_filterApplied p image
  end.

End Reentrant.
End Reentrant.

(** Sample filters for the above: the accepting filter of [Sample]
    replies with [Sample.sepia] from inside the call, every other filter
    replies later. *)
Module SyncSample.

Definition emits_inside (f : AbstractImageFilter) (image : QImage)
  : list QImage :=
  if filter_ptr f =? 2 then [Sample.sepia] else [].

Definition later (f : AbstractImageFilter) (image : QImage)
  : list QImage := [].

End SyncSample.

(* ================================================================== *)
(** ** Pixel grids: flips and quarter turns *)
(* ================================================================== *)

Section Grid.

Implicit Types (r : list QRgb) (g T : list (list QRgb)).

Lemma map_rev_involutive g : map (@rev QRgb) (map (@rev QRgb) g) = g.
Proof.
  induction g as [|r g IH]; simpl; [reflexivity|].
  now rewrite rev_involutive, IH.
Qed.

Lemma zip_cons_length r T :
  length (zip_cons r T) = Nat.min (length r) (length T).
Proof.
  revert T; induction r as [|x r IH]; intros [|c T]; simpl; auto.
Qed.

Lemma zip_cons_app r1 r2 T1 T2 :
  length r1 = length T1 ->
  zip_cons (r1 ++ r2) (T1 ++ T2) = zip_cons r1 T1 ++ zip_cons r2 T2.
Proof.
  revert T1; induction r1 as [|x r1 IH]; intros [|c T1] H;
    simpl in *; try discriminate; [reflexivity|].
  now rewrite IH by congruence.
Qed.

Lemma zip_cons_rev r T :
  length r = length T ->
  rev (zip_cons r T) = zip_cons (rev r) (rev T).
Proof.
  revert T; induction r as [|x r IH]; intros [|c T] H;
    simpl in *; try discriminate; [reflexivity|].
  rewrite IH by congruence.
  rewrite zip_cons_app by (rewrite !length_rev; congruence).
  reflexivity.
Qed.

Lemma transpose_length w g :
  Forall (fun r => length r = w) g -> length (transpose w g) = w.
Proof.
  induction 1 as [|r g Hr _ IH]; simpl.
  - apply repeat_length.
  - rewrite zip_cons_length, IH, Hr. apply Nat.min_id.
Qed.

Lemma zip_cons_rows r T n :
  Forall (fun c => length c = n) T ->
  Forall (fun c => length c = S n) (zip_cons r T).
Proof.
  intros H; revert r; induction H as [|c T Hc _ IH]; intros [|x r];
    simpl; constructor; simpl; auto.
Qed.

Lemma transpose_rect w h g : rect w h g -> rect h w (transpose w g).
Proof.
  intros [Hlen Hrows]; split; [now apply transpose_length|].
  subst h; clear -g. induction g as [|r g IH]; simpl.
  - apply Forall_forall; intros c Hc.
    now apply repeat_spec in Hc; subst c.
  - now apply zip_cons_rows.
Qed.

Lemma transpose_no_rows w : transpose 0 (repeat [] w) = [].
Proof. destruct w; reflexivity. Qed.

Lemma transpose_zip_cons r T n :
  length r = length T ->
  transpose (S n) (zip_cons r T) = r :: transpose n T.
Proof.
  revert T; induction r as [|x r IH]; intros [|c T] H;
    simpl in *; try discriminate; [reflexivity|].
  now rewrite IH by congruence.
Qed.

(** Transposing twice gives the grid back. *)
Lemma transpose_involutive w h g :
  rect w h g -> transpose h (transpose w g) = g.
Proof.
  intros [Hlen Hrows]; subst h.
  induction Hrows as [|r g Hr Hrows IH]; simpl.
  - apply transpose_no_rows.
  - rewrite transpose_zip_cons, IH; [reflexivity|].
    now rewrite transpose_length.
Qed.

Lemma rev_repeat_nil w : rev (repeat (@nil QRgb) w) = repeat [] w.
Proof.
  induction w as [|w IH]; simpl; [reflexivity|].
  rewrite IH. change [[]] with (repeat (@nil QRgb) 1).
  rewrite <- repeat_app, Nat.add_1_r. reflexivity.
Qed.

(** Flipping every row flips the order of the columns. *)
Lemma transpose_map_rev w g :
  Forall (fun r => length r = w) g ->
  transpose w (map (@rev QRgb) g) = rev (transpose w g).
Proof.
  induction 1 as [|r g Hr Hrows IH]; simpl.
  - symmetry; apply rev_repeat_nil.
  - rewrite IH, zip_cons_rev; [reflexivity|].
    now rewrite transpose_length.
Qed.

Lemma Forall_length_map_rev w g :
  Forall (fun r => length r = w) g ->
  Forall (fun r => length r = w) (map (@rev QRgb) g).
Proof.
  induction 1; simpl; constructor; auto. now rewrite length_rev.
Qed.

(** Flipping the order of the rows flips every column. *)
Lemma transpose_rev w h g :
  rect w h g ->
  transpose w (rev g) = map (@rev QRgb) (transpose w g).
Proof.
  intros Hg.
  pose proof (transpose_rect _ _ _ Hg) as [HTlen HTrows].
  pose proof (transpose_map_rev h (transpose w g) HTrows) as E.
  rewrite (transpose_involutive w h g Hg) in E.
  rewrite <- E.
  apply transpose_involutive with (h := w).
  split; [now rewrite length_map|].
  now apply Forall_length_map_rev.
Qed.

End Grid.

(* ================================================================== *)
(** ** Images: every call keeps the scan lines rectangular and can be
       undone *)
(* ================================================================== *)

Lemma image_eq w h g (img : QImage) :
  w = width img -> h = height img -> g = scanLines img ->
  mkImage w h g = img.
Proof. destruct img; simpl; intros -> -> ->; reflexivity. Qed.

Lemma wf_imageb_sound img : wf_imageb img = true -> wf_image img.
Proof.
  unfold wf_imageb, wf_image, rect; intros H.
  apply andb_true_iff in H as [Hh Hw]. split.
  - now apply Nat.eqb_eq.
  - apply Forall_forall; intros r Hr.
    rewrite forallb_forall in Hw. now apply Nat.eqb_eq, Hw.
Qed.

Lemma mirrored_wf h v img : wf_image img -> wf_image (mirrored h v img).
Proof.
  intros [Hlen Hrows]; unfold wf_image, rect, mirrored; simpl.
  assert (Hflip : Forall (fun r => length r = width img)
                    (if h then map (@rev QRgb) (scanLines img)
                     else scanLines img)).
  { destruct h; [now apply Forall_length_map_rev | assumption]. }
  destruct v, h; simpl; rewrite ?length_rev, ?length_map;
    split; auto; now apply Forall_rev.
Qed.

Lemma rotated90_wf img : wf_image img -> wf_image (rotated90 img).
Proof.
  intros H; apply transpose_rect in H as [Hlen Hrows].
  split; simpl; [now rewrite length_map|].
  now apply Forall_length_map_rev.
Qed.

Lemma rotated270_wf img : wf_image img -> wf_image (rotated270 img).
Proof.
  intros H; apply transpose_rect in H as [Hlen Hrows].
  split; simpl; [now rewrite length_rev|].
  now apply Forall_rev.
Qed.

Lemma rotated180_wf img : wf_image img -> wf_image (rotated180 img).
Proof.
  intros [Hlen Hrows]; split; simpl.
  - now rewrite length_rev, length_map.
  - now apply Forall_rev, Forall_length_map_rev.
Qed.

Lemma transformed_rotate_wf a img :
  wf_image img -> wf_image (transformed_rotate a img).
Proof.
  intros H; unfold transformed_rotate.
  repeat match goal with |- context [if ?b then _ else _] => destruct b end;
    auto using rotated90_wf, rotated180_wf, rotated270_wf.
Qed.

Lemma applyOp_wf op img : wf_image img -> wf_image (applyOp op img).
Proof.
  destruct op; simpl; auto using mirrored_wf, transformed_rotate_wf.
Qed.

Lemma runOps_wf ops img : wf_image img -> wf_image (runOps ops img).
Proof.
  revert img; induction ops as [|op ops IH]; intros img H; simpl; auto.
  apply IH, applyOp_wf, H.
Qed.

(** A flip is its own inverse. *)
Lemma mirrored_involutive h v img : mirrored h v (mirrored h v img) = img.
Proof.
  unfold mirrored; apply image_eq; try reflexivity.
  destruct h, v; simpl;
    rewrite <- ?map_rev, ?rev_involutive, ?map_rev_involutive; reflexivity.
Qed.

Lemma rotated270_rotated90 img :
  wf_image img -> rotated270 (rotated90 img) = img.
Proof.
  intros H; unfold rotated270, rotated90; simpl.
  apply image_eq; try reflexivity.
  pose proof (transpose_rect _ _ _ H) as [_ Hrows].
  rewrite (transpose_map_rev _ _ Hrows), rev_involutive.
  now apply transpose_involutive.
Qed.

Lemma rotated90_rotated270 img :
  wf_image img -> rotated90 (rotated270 img) = img.
Proof.
  intros H; unfold rotated270, rotated90; simpl.
  apply image_eq; try reflexivity.
  rewrite (transpose_rev _ _ _ (transpose_rect _ _ _ H)), map_rev_involutive.
  now apply transpose_involutive.
Qed.

Lemma rotated180_involutive img : rotated180 (rotated180 img) = img.
Proof.
  unfold rotated180; simpl; apply image_eq; try reflexivity.
  now rewrite <- map_rev, rev_involutive, map_rev_involutive.
Qed.

(** A rotation is undone by the rotation through the opposite angle. *)
Lemma transformed_rotate_opp a img :
  wf_image img ->
  transformed_rotate (- a) (transformed_rotate a img) = img.
Proof.
  intros H; unfold transformed_rotate.
  destruct (Z.eqb_spec (a mod 360) 0) as [E0|N0].
  { replace ((- a) mod 360)%Z with 0%Z
      by (Z.div_mod_to_equations; lia). reflexivity. }
  destruct (Z.eqb_spec (a mod 360) 90) as [E1|N1].
  { replace ((- a) mod 360)%Z with 270%Z
      by (Z.div_mod_to_equations; lia).
    simpl. now apply rotated270_rotated90. }
  destruct (Z.eqb_spec (a mod 360) 180) as [E2|N2].
  { replace ((- a) mod 360)%Z with 180%Z
      by (Z.div_mod_to_equations; lia).
    simpl. apply rotated180_involutive. }
  destruct (Z.eqb_spec (a mod 360) 270) as [E3|N3].
  { replace ((- a) mod 360)%Z with 90%Z
      by (Z.div_mod_to_equations; lia).
    simpl. now apply rotated90_rotated270. }
  destruct (Z.eqb_spec ((- a) mod 360) 0);
    [reflexivity|].
  destruct (Z.eqb_spec ((- a) mod 360) 90);
    [exfalso; Z.div_mod_to_equations; lia|].
  destruct (Z.eqb_spec ((- a) mod 360) 180);
    [exfalso; Z.div_mod_to_equations; lia|].
  destruct (Z.eqb_spec ((- a) mod 360) 270);
    [exfalso; Z.div_mod_to_equations; lia|].
  reflexivity.
Qed.

Lemma applyOp_inverse op img :
  wf_image img -> applyOp (inverseOp op) (applyOp op img) = img.
Proof.
  destruct op; simpl; intros H;
    [apply mirrored_involutive | now apply transformed_rotate_opp].
Qed.

Lemma runOps_app ops1 ops2 img :
  runOps (ops1 ++ ops2) img = runOps ops2 (runOps ops1 img).
Proof. apply fold_left_app. Qed.

(** Undoing the calls of a sequence, last one first, undoes the
    sequence. *)
Lemma runOps_inverse ops img :
  wf_image img -> runOps (inverseOps ops) (runOps ops img) = img.
Proof.
  revert img; induction ops as [|op ops IH]; intros img H;
    [reflexivity|].
  unfold inverseOps; simpl rev. rewrite map_app, runOps_app; simpl.
  change (map inverseOp (rev ops)) with (inverseOps ops).
  rewrite IH by now apply applyOp_wf.
  now apply applyOp_inverse.
Qed.

(** The transform keeps images well formed. *)
Lemma rotate_wf src o : wf_image src -> wf_image (rotate src o).
Proof. apply runOps_wf. Qed.

(** The branches of [rotate], call by call. *)
Lemma rotate_cases src :
  rotate src TopLeft = src
  /\ rotate src TopRight = mirrored true false src
  /\ rotate src BottomRight = mirrored true true src
  /\ rotate src BottomLeft = mirrored false true src
  /\ rotate src LeftTop = mirrored true false (rotated90 src)
  /\ rotate src RightTop = rotated90 src
  /\ rotate src RightBottom = mirrored true false (rotated270 src)
  /\ rotate src LeftBottom = rotated270 src.
Proof. repeat split. Qed.

(** The geometric inverse of a case of [rotate] is again a case of
    [rotate]. *)
Lemma rotate_inverse_is_rotate img o :
  wf_image img -> rotate_inverse img o = rotate img (inverse_orientation o).
Proof.
  intros H.
  pose proof (transpose_rect _ _ _ H) as [HTlen HTrows].
  destruct o; try reflexivity;
    unfold rotate_inverse, rotate, runOps; simpl;
    unfold mirrored; simpl.
  - change (transformed_rotate (-90)) with rotated270.
    unfold rotated270, rotated90; simpl; f_equal.
    rewrite (transpose_map_rev _ _ (proj2 H)).
    now rewrite map_rev_involutive, rev_involutive.
  - change (transformed_rotate 90) with rotated90.
    unfold rotated270, rotated90; simpl; f_equal.
    now rewrite (transpose_map_rev _ _ (proj2 H)).
Qed.

(* ================================================================== *)
(** ** Properties of the orientation transform *)
(* ================================================================== *)

(** C6, as the specification words it, does not hold: among the eight
    orientation cases the number of branches that compose a rotation with
    a flip is not one. *)
Lemma composing_cases_not_exactly_one :
  length (filter composes_rotation_with_flip orientations) <> 1.
Proof. vm_compute. discriminate. Qed.

(** C6 (amended): every branch of the orientation transform is a sequence
    of calls each of which is a horizontal and/or vertical flip or a
    rotation by 90 or -90 degrees, and exactly two of the eight
    orientation cases, [LeftTop] and [RightBottom], compose a rotation
    with a flip. *)
Theorem rotate_uses_flips_and_quarter_turns :
  (forall o : Orientation,
      exists ops : list ImageOp,
        (forall src, rotate src o = runOps ops src)
        /\ forallb (fun op => is_flip op || is_quarter_turn op) ops = true)
  /\ filter composes_rotation_with_flip orientations = [LeftTop; RightBottom].
Proof.
  split; [|reflexivity].
  intros o; exists (rotate_ops o); split; [reflexivity|].
  destruct o; reflexivity.
Qed.

(** C7: for every orientation code, applying the orientation transform to
    a (rectangular) image and then its geometric inverse gives back the
    original pixel grid; in particular two successive horizontal flips
    are the identity. *)
Theorem rotate_then_inverse (img : QImage) (o : Orientation) :
  wf_image img ->
  rotate_inverse (rotate img o) o = img
  /\ mirrored true false (mirrored true false img) = img.
Proof.
  intros H; split.
  - unfold rotate_inverse, rotate. now apply runOps_inverse.
  - apply mirrored_involutive.
Qed.

(** C8: the orientation transform is a total function; on the identity
    orientation it returns its input, and on any code that is not one of
    the eight orientations it returns its input as well. *)
Theorem rotate_identity_and_fallback (src : QImage) :
  rotate src TopLeft = src
  /\ (forall code : Z, rotate src (Unrecognized code) = src)
  /\ (forall o : Orientation, exists dst : QImage, rotate src o = dst).
Proof.
  split; [reflexivity|]. split; [reflexivity|].
  intros o; eexists; reflexivity.
Qed.

(* ================================================================== *)
(** ** Properties of the item *)
(* ================================================================== *)

Lemma Orientation_eqb_eq a b : Orientation_eqb a b = true -> a = b.
Proof.
  destruct a, b; simpl; try discriminate; try reflexivity.
  intros H; apply Z.eqb_eq in H; now subst.
Qed.

(** What [resetFilter] does: the filtered buffer becomes the base image,
    the item is dirty and no longer applying. *)
Lemma resetFilter_run s :
  state_after resetFilter s =
    mkItem (m_source s) (m_image s) (m_image s) (m_filter s)
           false true (implicitWidth s) (implicitHeight s) (connected s)
  /\ events_of resetFilter s =
       match m_filter s with
       | Some f => [resetParameters (filter_ptr f)]
       | None => []
       end
       ++ [imageChanged (m_image s); update]
       ++ (if m_isApplyingFilter s then [isApplyingFilterChanged false]
           else []).
Proof.
  unfold state_after, events_of, resetFilter, bind, get, modify, emit, call.
  destruct s as [src img fimg [f|] [|] chg iw ih conn]; simpl; split;
    reflexivity.
Qed.

(** C1: the code does not do what the claim says.  An item loads
    [a.jpg], gets a filter attached and receives its result; then
    [setSource("b.jpg")] replaces BaseImage, sets the new implicit size,
    marks the item dirty and announces the new image, but it leaves the
    filtered buffer of the old picture in place: FilteredImage is not
    cleared, and [image()] and the render-node sync keep selecting it
    instead of the image just announced. *)
Theorem setSource_leaves_stale_filtered_buffer :
  let s := run_calls Sample.read Sample.orientation "/home/nemo/Pictures"
                     [call_setSource "a.jpg";
                      call_applyFilter (Some Sample.accepting);
                      signal_filterApplied 2 Sample.sepia]
                     FilteredImage_new in
  let s1 := state_after (setSource Sample.read Sample.orientation "b.jpg")
                        s in
  m_source s <> "b.jpg"
  /\ m_filteredImage s = Sample.sepia
  /\ m_image s1 = Sample.portrait
  /\ events_of (setSource Sample.read Sample.orientation "b.jpg") s
     = [sourceChanged "b.jpg"; imageChanged Sample.portrait; update]
  /\ m_imageChanged s1 = true
  /\ (implicitWidth s1, implicitHeight s1) = (1, 2)%Z
  /\ m_filteredImage s1 = Sample.sepia
  /\ isNull (m_filteredImage s1) = false
  /\ displayed s1 = Sample.sepia
  /\ paintedImage s1 = Sample.sepia.
Proof. repeat split; vm_compute; try reflexivity; discriminate. Qed.

(** What [setSource] does with a source string different from the
    current one: BaseImage is the orientation-corrected decode of the new
    source and the implicit size is its pixel size, the item is marked
    dirty, and a source-changed and an image-changed notification
    (carrying the new BaseImage) are emitted, in that order.  It assigns
    nothing else: the filtered buffer, the filter reference, its
    connection and the applying flag are the ones of before the call. *)
Theorem setSource_new_source
        (read : string -> QImage) (orient : string -> Orientation)
        (source : string) (s : Item) :
  m_source s <> source ->
  let s' := state_after (setSource read orient source) s in
  m_source s' = source
  /\ m_image s' = rotate (read source) (orient source)
  /\ implicitWidth s' = Z.of_nat (width (m_image s'))
  /\ implicitHeight s' = Z.of_nat (height (m_image s'))
  /\ m_imageChanged s' = true
  /\ events_of (setSource read orient source) s
     = [sourceChanged source; imageChanged (m_image s'); update]
  /\ m_filteredImage s' = m_filteredImage s
  /\ m_filter s' = m_filter s
  /\ connected s' = connected s
  /\ m_isApplyingFilter s' = m_isApplyingFilter s.
Proof.
  intros Hne; apply String.eqb_neq in Hne.
  unfold state_after, events_of, setSource, bind, get, modify, emit, call.
  rewrite Hne; simpl.
  destruct (Orientation_eqb (orient source) TopLeft) eqn:E; simpl.
  - apply Orientation_eqb_eq in E; rewrite E.
    repeat split; reflexivity.
  - repeat split; reflexivity.
Qed.



(** C3: [applyFilter(f)] with a non-null filter that has parameters sends
    no application request; it goes through [resetFilter], so that
    immediately after the call the displayed buffer is BaseImage (which
    is untouched) and ApplyingFlag is false. *)
Theorem applyFilter_parameterized (f : AbstractImageFilter) (s : Item) :
  parameterList f <> [] ->
  let s' := state_after (applyFilter (Some f)) s in
  (forall p img,
      ~ In (applyFilterRequest p img) (events_of (applyFilter (Some f)) s))
  /\ events_of (applyFilter (Some f)) s
     = [resetParameters (filter_ptr f); imageChanged (m_image s); update]
       ++ (if m_isApplyingFilter s then [isApplyingFilterChanged false]
           else [])
  /\ Idle s'
  /\ m_image s' = m_image s
  /\ m_filteredImage s' = m_image s
  /\ m_filter s' = Some f.
Proof.
  intros Hp.
  unfold Idle, displayed, result_of, image, state_after, events_of,
    applyFilter, resetFilter, bind, get, modify, call, emit,
    connect, disconnect.
  destruct s as [src img fimg old app chg iw ih conn]; simpl in *.
  destruct (parameterList f) as [|p ps]; [congruence|].
  destruct old as [old|], app; simpl;
    (split; [intros q i H; intuition discriminate|]);
    repeat split; destruct (isNull img); reflexivity.
Qed.

(** Digits followed by the extension are accepted once a digit was
    seen. *)
Lemma digits_then_jpg_uint (d : Decimal.uint) :
  digits_then_jpg true (NilEmpty.string_of_uint d ++ ".jpg")%string = true.
Proof. induction d; simpl; auto. Qed.

Lemma digits_then_jpg_nonnil (d : Decimal.uint) :
  d <> Decimal.Nil ->
  digits_then_jpg false (NilEmpty.string_of_uint d ++ ".jpg")%string = true.
Proof.
  destruct d; intros H; [congruence| ..]; simpl; apply digits_then_jpg_uint.
Qed.

Lemma is_integer_jpg_uint (d : Decimal.uint) :
  d <> Decimal.Nil ->
  is_integer_jpg (NilEmpty.string_of_uint d ++ ".jpg")%string = true.
Proof.
  destruct d; intros H; [congruence| ..]; simpl; apply digits_then_jpg_uint.
Qed.

(** The name [saveImage] builds has the shape [<integer>.jpg], whatever
    the clock says. *)
Lemma QString_number_jpg (n : Z) :
  is_integer_jpg (QString_number n ++ ".jpg")%string = true.
Proof.
  unfold QString_number. destruct n as [|p|p]; simpl.
  - reflexivity.
  - pose proof (DecimalPos.Unsigned.to_uint_nonnil p) as Hn.
    unfold NilZero.string_of_uint.
    destruct (Pos.to_uint p) eqn:E; try congruence;
      rewrite <- E; apply is_integer_jpg_uint; congruence.
  - pose proof (DecimalPos.Unsigned.to_uint_nonnil p) as Hn.
    unfold NilZero.string_of_uint.
    destruct (Pos.to_uint p) eqn:E; try congruence;
      rewrite <- E; apply digits_then_jpg_nonnil; congruence.
Qed.

(** Reading the digits [QString::number] prints gives the number
    back. *)
Lemma QString_number_reads_back (n : Z) :
  integer_of_string (QString_number n) = Some n.
Proof.
  unfold integer_of_string, QString_number.
  rewrite NilZero.isi.
  - simpl. now rewrite DecimalZ.of_to.
  - destruct n as [|p|p]; simpl; try discriminate.
    intros [= H]. now apply (DecimalPos.Unsigned.to_uint_nonnil p).
  - destruct n as [|p|p]; simpl; try discriminate.
    intros [= H]. now apply (DecimalPos.Unsigned.to_uint_nonnil p).
Qed.

(** What [applyCurrentFilter] does. *)
Lemma applyCurrentFilter_run s :
  applyCurrentFilter s =
  (tt,
   if isNull (m_filteredImage s) then s
   else set_m_filteredImage QImage_null (set_m_image (m_filteredImage s) s),
   []).
Proof.
  unfold applyCurrentFilter, bind, get, modify.
  destruct (isNull (m_filteredImage s)); reflexivity.
Qed.

(** C4: [saveImage] first commits: a pending FilteredImage becomes
    BaseImage (so BaseImage is the buffer that was displayed) and
    FilteredImage is absent after the call, exactly as after
    [applyCurrentFilter]; that BaseImage is what is written; and exactly
    one save-completed notification is emitted, whose file name is the
    decimal form of the clock's millisecond count followed by [.jpg]: it
    has the shape [<integer>.jpg], and the integer read back is the
    clock's count. *)
Theorem saveImage_commits_and_notifies
        (pictures : string) (has_dir mkdir_ok : bool) (now : Z) (s : Item) :
  let call_ := saveImage pictures has_dir mkdir_ok now in
  let filename := (QString_number now ++ ".jpg")%string in
  state_after call_ s = state_after applyCurrentFilter s
  /\ state_after call_ s
     = (if isNull (m_filteredImage s) then s
        else set_m_filteredImage QImage_null
               (set_m_image (m_filteredImage s) s))
  /\ m_image (state_after call_ s)
     = (if isNull (m_filteredImage s) then m_image s
        else m_filteredImage s)
  /\ m_filteredImage (state_after call_ s)
     = (if isNull (m_filteredImage s) then m_filteredImage s
        else QImage_null)
  /\ isNull (m_filteredImage (state_after call_ s)) = true
  /\ filter is_imageSaved (events_of call_ s) = [imageSaved filename]
  /\ is_integer_jpg filename = true
  /\ integer_of_string (QString_number now) = Some now
  /\ (exists path,
         events_of call_ s
         = (if has_dir then [] else [mkdir pictures "filters"])
           ++ [save path
                    (if isNull (m_filteredImage s) then m_image s
                     else m_filteredImage s)
                    "JPG";
               imageSaved filename]).
Proof.
  unfold saveImage, state_after, events_of, bind, get, call, emit.
  rewrite applyCurrentFilter_run; simpl.
  split; [destruct has_dir; reflexivity|].
  split; [destruct has_dir; reflexivity|].
  split; [destruct has_dir, (isNull (m_filteredImage s)); reflexivity|].
  split; [destruct has_dir, (isNull (m_filteredImage s)); reflexivity|].
  split.
  { destruct has_dir; simpl; destruct (isNull (m_filteredImage s)) eqn:E;
      simpl; auto. }
  split; [destruct has_dir; reflexivity|].
  split; [apply QString_number_jpg|].
  split; [apply QString_number_reads_back|].
  exists (((if has_dir || mkdir_ok
            then pictures ++ "/filters" else pictures)
           ++ "/" ++ QString_number now ++ ".jpg")%string).
  destruct has_dir, (isNull (m_filteredImage s)); simpl; reflexivity.
Qed.

(** C5: [applyCurrentFilter] with FilteredImage present copies it into
    BaseImage and clears FilteredImage; with FilteredImage absent it
    leaves the item as it is; it emits nothing in either case, and a
    second call in a row changes nothing more. *)
Theorem applyCurrentFilter_commits_once (s : Item) :
  let s' := state_after applyCurrentFilter s in
  (if isNull (m_filteredImage s)
   then s' = s
   else m_image s' = m_filteredImage s
        /\ m_filteredImage s' = QImage_null
        /\ s' = set_m_filteredImage QImage_null
                  (set_m_image (m_filteredImage s) s))
  /\ events_of applyCurrentFilter s = []
  /\ state_after applyCurrentFilter s' = s'
  /\ events_of applyCurrentFilter s' = [].
Proof.
  unfold state_after, events_of.
  rewrite (applyCurrentFilter_run s); simpl.
  destruct (isNull (m_filteredImage s)) eqn:E;
    rewrite applyCurrentFilter_run; simpl; rewrite ?E;
    repeat split; reflexivity.
Qed.

(** C9: the image accessor returns FilteredImage when it is non-null and
    BaseImage otherwise; the render-node sync selects the same buffer: it
    returns no node exactly when that buffer is null, and a texture it
    uploads is created from that buffer (otherwise the item was not dirty
    and the old node, which has a texture, is reused). *)
Theorem filtered_image_has_display_priority
        (s : Item) (oldNode : option QSGSimpleTextureNode) :
  displayed s
  = (if isNull (m_filteredImage s) then m_image s else m_filteredImage s)
  /\ paintedImage s = displayed s
  /\ match result_of (updatePaintNode oldNode) s with
     | None => isNull (displayed s) = true
     | Some node =>
         isNull (displayed s) = false
         /\ (texture node = Some (displayed s)
             \/ (m_imageChanged s = false /\ oldNode = Some node
                 /\ texture node <> None))
     end.
Proof.
  assert (Hp : paintedImage s = displayed s).
  { unfold paintedImage, displayed, result_of, image, bind, get; simpl.
    destruct (isNull (m_filteredImage s)); reflexivity. }
  split; [reflexivity|]. split; [exact Hp|].
  unfold result_of, updatePaintNode, bind, get, modify; simpl.
  rewrite Hp.
  destruct (isNull (displayed s)) eqn:En; simpl; [reflexivity|].
  destruct (m_imageChanged s); simpl; [auto|].
  destruct oldNode as [[[t|] r d]|]; simpl; auto.
  split; [reflexivity|]. right; repeat split; discriminate.
Qed.

(** C10: after [resetFilter] on an item whose BaseImage is non-null,
    FilteredImage is BaseImage and non-null; a following
    [applyCurrentFilter] therefore takes the commit branch: it copies
    that buffer into BaseImage, clears FilteredImage, and the item is not
    what it was before that call. *)
Theorem resetFilter_then_commit (s : Item) :
  isNull (m_image s) = false ->
  let s1 := state_after resetFilter s in
  let s2 := state_after applyCurrentFilter s1 in
  m_filteredImage s1 = m_image s1
  /\ m_image s1 = m_image s
  /\ isNull (m_filteredImage s1) = false
  /\ s2 = set_m_filteredImage QImage_null
            (set_m_image (m_filteredImage s1) s1)
  /\ m_image s2 = m_image s
  /\ m_filteredImage s2 = QImage_null
  /\ s2 <> s1.
Proof.
  intros Hn; cbv zeta.
  destruct (resetFilter_run s) as [-> _].
  unfold state_after; rewrite applyCurrentFilter_run; simpl.
  rewrite Hn. repeat split; try reflexivity.
  intros H; apply (f_equal (fun x => isNull (m_filteredImage x))) in H.
  simpl in H. rewrite Hn in H. discriminate.
Qed.

(* ================================================================== *)
(** ** The properties at concrete inputs *)
(* ================================================================== *)

(** The quarter turn of the [RightTop] branch moves the top-left pixel of
    the 3 x 2 picture to the top-right corner (clockwise). *)
Example rotate_photo_RightTop :
  rotate Sample.photo RightTop
  = mkImage 2 3 [[4; 1]; [5; 2]; [6; 3]]%N.
Proof. reflexivity. Qed.

Example rotate_photo_LeftBottom :
  rotate Sample.photo LeftBottom
  = mkImage 2 3 [[3; 6]; [2; 5]; [1; 4]]%N.
Proof. reflexivity. Qed.

(** The two composed branches are the two diagonal flips. *)
Example rotate_photo_LeftTop :
  rotate Sample.photo LeftTop
  = mkImage 2 3 [[1; 4]; [2; 5]; [3; 6]]%N.
Proof. reflexivity. Qed.

Example rotate_photo_RightBottom :
  rotate Sample.photo RightBottom
  = mkImage 2 3 [[6; 3]; [5; 2]; [4; 1]]%N.
Proof. reflexivity. Qed.

(** The recogniser of [<integer>.jpg] rejects names without digits, and
    names with a longer extension. *)
Example is_integer_jpg_samples :
  is_integer_jpg "1414672000123.jpg" = true
  /\ is_integer_jpg "-5.jpg" = true
  /\ is_integer_jpg ".jpg" = false
  /\ is_integer_jpg "-.jpg" = false
  /\ is_integer_jpg "12.jpgx" = false
  /\ is_integer_jpg "12a.jpg" = false.
Proof. repeat split. Qed.

(** A session: load [a.jpg] (stored rotated), attach the accepting
    filter, receive its result, save. *)
Example session :
  let s1 := state_after (setSource Sample.read Sample.orientation "a.jpg")
                        FilteredImage_new in
  let s2 := state_after (applyFilter (Some Sample.accepting)) s1 in
  let s3 := state_after (filter_emits_filterApplied 2 Sample.sepia) s2 in
  let s4 := state_after (saveImage "/home/nemo/Pictures" false true
                                   1414672000123) s3 in
  m_image s1 = mkImage 2 3 [[4; 1]; [5; 2]; [6; 3]]%N
  /\ (implicitWidth s1, implicitHeight s1) = (2, 3)%Z
  /\ m_isApplyingFilter s2 = true
  /\ displayed s2 = m_image s1
  /\ m_isApplyingFilter s3 = false
  /\ displayed s3 = Sample.sepia
  /\ m_image s4 = Sample.sepia
  /\ m_filteredImage s4 = QImage_null
  /\ events_of (saveImage "/home/nemo/Pictures" false true 1414672000123) s3
     = [mkdir "/home/nemo/Pictures" "filters";
        save "/home/nemo/Pictures/filters/1414672000123.jpg"
             Sample.sepia "JPG";
        imageSaved "1414672000123.jpg"].
Proof. repeat split. Qed.

Lemma rotate_then_inverse_witness :
  wf_image Sample.photo
  /\ rotate_inverse (rotate Sample.photo LeftTop) LeftTop = Sample.photo
  /\ mirrored true false (mirrored true false Sample.photo) = Sample.photo.
Proof.
  assert (H : wf_image Sample.photo)
    by (apply wf_imageb_sound; reflexivity).
  split; [exact H|].
  exact (rotate_then_inverse Sample.photo LeftTop H).
Defined.

Lemma setSource_new_source_witness :
  m_source Sample.busy <> "b.jpg"
  /\ m_image (state_after (setSource Sample.read Sample.orientation "b.jpg")
                          Sample.busy)
     = Sample.portrait.
Proof.
  assert (H : m_source Sample.busy <> "b.jpg") by (simpl; discriminate).
  split; [exact H|].
  exact (proj1 (proj2 (setSource_new_source
                         Sample.read Sample.orientation "b.jpg"
                         Sample.busy H))).
Defined.


Lemma applyFilter_parameterized_witness :
  Idle (state_after (applyFilter (Some Sample.parameterized)) Sample.busy).
Proof.
  assert (H : parameterList Sample.parameterized <> [])
    by (simpl; discriminate).
  exact (proj1 (proj2 (proj2 (applyFilter_parameterized
                                Sample.parameterized Sample.busy H)))).
Defined.

Lemma resetFilter_then_commit_witness :
  isNull (m_image Sample.loaded) = false
  /\ m_filteredImage
       (state_after applyCurrentFilter
                    (state_after resetFilter Sample.loaded))
     = QImage_null.
Proof.
  split; [reflexivity|].
  exact (proj1 (proj2 (proj2 (proj2 (proj2 (proj2
           (resetFilter_then_commit Sample.loaded eq_refl))))))).
Defined.

(* ================================================================== *)
(** ** Further properties of the orientation transform *)
(* ================================================================== *)

Lemma concat_repeat_nil (w : nat) : concat (repeat (@nil QRgb) w) = [].
Proof. induction w; simpl; auto. Qed.

Lemma concat_zip_cons (r : list QRgb) (T : list (list QRgb)) :
  length r = length T ->
  Permutation (concat (zip_cons r T)) (r ++ concat T).
Proof.
  revert T; induction r as [|x r IH]; intros [|c T] H;
    simpl in *; try discriminate; [constructor|].
  constructor.
  rewrite IH by congruence.
  apply Permutation_app_swap_app.
Qed.

Lemma concat_transpose (w : nat) (g : list (list QRgb)) :
  Forall (fun r => length r = w) g ->
  Permutation (concat (transpose w g)) (concat g).
Proof.
  induction 1 as [|r g Hr Hrows IH]; simpl.
  - rewrite concat_repeat_nil. constructor.
  - rewrite concat_zip_cons by now rewrite transpose_length.
    now apply Permutation_app_head.
Qed.

Lemma concat_map_rev (g : list (list QRgb)) :
  Permutation (concat (map (@rev QRgb) g)) (concat g).
Proof.
  induction g as [|r g IH]; simpl; [constructor|].
  apply Permutation_app; [symmetry; apply Permutation_rev | exact IH].
Qed.

Lemma concat_rev_rows (g : list (list QRgb)) :
  Permutation (concat (rev g)) (concat g).
Proof.
  induction g as [|r g IH]; simpl; [constructor|].
  rewrite concat_app; simpl. rewrite app_nil_r, IH.
  apply Permutation_app_comm.
Qed.

Lemma mirrored_pixels h v img :
  Permutation (pixels (mirrored h v img)) (pixels img).
Proof.
  unfold pixels, mirrored; simpl.
  destruct v, h; rewrite ?concat_rev_rows, ?concat_map_rev; reflexivity.
Qed.

Lemma transformed_rotate_pixels a img :
  wf_image img ->
  Permutation (pixels (transformed_rotate a img)) (pixels img).
Proof.
  intros [_ Hrows]; unfold transformed_rotate, pixels.
  repeat match goal with |- context [if ?b then _ else _] => destruct b end;
    simpl; rewrite ?concat_rev_rows, ?concat_map_rev;
    try reflexivity; now apply concat_transpose.
Qed.

Lemma runOps_pixels ops img :
  wf_image img -> Permutation (pixels (runOps ops img)) (pixels img).
Proof.
  revert img; induction ops as [|op ops IH]; intros img H; simpl;
    [reflexivity|].
  rewrite IH by now apply applyOp_wf.
  destruct op; simpl;
    [apply mirrored_pixels | now apply transformed_rotate_pixels].
Qed.

(** X1: the size of the result only depends on the size of the source: the
    four branches with a quarter turn exchange width and height, the
    others keep them; so the result is null exactly when the source
    is. *)
Theorem rotate_size (src : QImage) (o : Orientation) :
  (width (rotate src o), height (rotate src o))
  = (if transposing o then (height src, width src)
     else (width src, height src))
  /\ isNull (rotate src o) = isNull src.
Proof.
  unfold isNull; destruct o; simpl; split; try reflexivity;
    apply orb_comm.
Qed.

(** X2: on an image whose scan lines match its dimensions the transform
    yields such an image again, and it neither loses nor invents a
    pixel: the pixels of the result are a rearrangement of the pixels of
    the source. *)
Theorem rotate_rearranges_pixels (src : QImage) (o : Orientation) :
  wf_image src ->
  wf_image (rotate src o)
  /\ Permutation (pixels (rotate src o)) (pixels src)
  /\ length (pixels (rotate src o)) = width src * height src.
Proof.
  intros H.
  assert (P : Permutation (pixels (rotate src o)) (pixels src))
    by now apply runOps_pixels.
  split; [now apply runOps_wf|]. split; [exact P|].
  rewrite (Permutation_length P).
  destruct H as [Hlen Hrows]; unfold pixels.
  rewrite <- Hlen. clear Hlen P.
  induction Hrows as [|r g Hr _ IH]; simpl; [lia|].
  rewrite length_app, IH, Hr. lia.
Qed.

Lemma rotate_rearranges_pixels_witness :
  wf_image Sample.photo
  /\ Permutation (pixels (rotate Sample.photo RightBottom))
                 (pixels Sample.photo).
Proof.
  assert (H : wf_image Sample.photo)
    by (apply wf_imageb_sound; reflexivity).
  split; [exact H|].
  exact (proj1 (proj2 (rotate_rearranges_pixels
                         Sample.photo RightBottom H))).
Defined.

(** Diagonal mirroring keeps images well formed, undoes itself, and
    exchanges the two flips. *)
Lemma transposed_wf img : wf_image img -> wf_image (transposed img).
Proof. intros H; now apply transpose_rect. Qed.

Lemma transposed_involutive img :
  wf_image img -> transposed (transposed img) = img.
Proof.
  intros H; unfold transposed; simpl.
  apply image_eq; try reflexivity. now apply transpose_involutive.
Qed.

Lemma transposed_mirrored h v img :
  wf_image img ->
  transposed (mirrored h v img) = mirrored v h (transposed img).
Proof.
  intros H; pose proof H as [Hlen Hrows].
  unfold transposed, mirrored; simpl; f_equal.
  destruct h, v; simpl; try reflexivity.
  - rewrite (transpose_rev (width img) (height img))
      by (split; [now rewrite length_map
                 | now apply Forall_length_map_rev]).
    rewrite (transpose_map_rev _ _ Hrows). now rewrite map_rev.
  - now apply transpose_map_rev.
  - now apply (transpose_rev _ (height img)).
Qed.

Lemma mirrored_mirrored h1 v1 h2 v2 img :
  mirrored h2 v2 (mirrored h1 v1 img)
  = mirrored (xorb h2 h1) (xorb v2 v1) img.
Proof.
  unfold mirrored; simpl; f_equal.
  destruct h1, v1, h2, v2; simpl;
    rewrite <- ?map_rev, ?rev_involutive, ?map_rev_involutive,
      ?rev_involutive; reflexivity.
Qed.

Lemma act_wf c img : wf_image img -> wf_image (act c img).
Proof.
  intros H; unfold act; apply mirrored_wf.
  destruct (diagonal c); [now apply transposed_wf | exact H].
Qed.

(** Every branch of [rotate] is the symmetry [symmetry_of] names. *)
Lemma rotate_is_symmetry img o :
  rotate img o = act (symmetry_of o) img.
Proof.
  assert (Hid : img = mirrored false false img)
    by (unfold mirrored; simpl; symmetry; now apply image_eq).
  destruct o; unfold act; simpl; try reflexivity; try exact Hid.
  - (* LeftTop *)
    unfold rotate, runOps; simpl.
    change (transformed_rotate 90) with rotated90.
    unfold mirrored, rotated90, transposed; simpl; f_equal.
    now rewrite map_rev_involutive.
  - (* RightBottom *)
    unfold rotate, runOps; simpl.
    change (transformed_rotate (-90)) with rotated270.
    unfold mirrored, rotated270, transposed; simpl; f_equal.
    now rewrite map_rev.
Qed.

Lemma act_act c1 c2 img :
  wf_image img -> act c2 (act c1 img) = act (compose_symmetry c1 c2) img.
Proof.
  intros H; destruct c1 as [t1 h1 v1], c2 as [t2 h2 v2];
    unfold act, compose_symmetry; simpl.
  destruct t2.
  - rewrite transposed_mirrored
      by (destruct t1; [now apply transposed_wf | exact H]).
    rewrite mirrored_mirrored.
    destruct t1; simpl; [now rewrite transposed_involutive | reflexivity].
  - rewrite mirrored_mirrored. destruct t1; reflexivity.
Qed.

Lemma symmetry_of_orientation_of c : symmetry_of (orientation_of c) = c.
Proof. destruct c as [[|] [|] [|]]; reflexivity. Qed.

(** X3: the eight cases of the transform are closed under composition:
    correcting by [o1] and then by [o2] is correcting by one case,
    [compose_orientation o1 o2], which is one of the eight (two
    clockwise quarter turns, for example, are the half turn). *)
Theorem rotate_rotate (img : QImage) (o1 o2 : Orientation) :
  wf_image img ->
  rotate (rotate img o1) o2 = rotate img (compose_orientation o1 o2)
  /\ In (compose_orientation o1 o2) orientations.
Proof.
  intros H. split.
  - rewrite !rotate_is_symmetry, act_act by exact H.
    unfold compose_orientation. now rewrite symmetry_of_orientation_of.
  - unfold compose_orientation.
    destruct (compose_symmetry (symmetry_of o1) (symmetry_of o2))
      as [[|] [|] [|]]; simpl; tauto.
Qed.

Lemma rotate_rotate_witness :
  wf_image Sample.photo
  /\ rotate (rotate Sample.photo RightTop) RightTop
     = rotate Sample.photo BottomRight.
Proof.
  assert (H : wf_image Sample.photo)
    by (apply wf_imageb_sound; reflexivity).
  split; [exact H|].
  exact (proj1 (rotate_rotate Sample.photo RightTop RightTop H)).
Defined.

(** X4: every case of the transform is undone by a case of the transform:
    the two plain quarter turns ([RightTop], [LeftBottom]) undo each
    other, and each of the other cases undoes itself. *)
Theorem rotate_undone_by_rotate (img : QImage) (o : Orientation) :
  wf_image img ->
  rotate (rotate img o) (inverse_orientation o) = img
  /\ rotate (rotate img (inverse_orientation o)) o = img.
Proof.
  intros H; split.
  - rewrite <- rotate_inverse_is_rotate by now apply rotate_wf.
    unfold rotate_inverse, rotate. now apply runOps_inverse.
  - assert (E : o = inverse_orientation (inverse_orientation o))
      by (destruct o; reflexivity).
    rewrite E at 2.
    rewrite <- rotate_inverse_is_rotate by now apply rotate_wf.
    unfold rotate_inverse, rotate. now apply runOps_inverse.
Qed.

Lemma rotate_undone_by_rotate_witness :
  wf_image Sample.photo
  /\ rotate (rotate Sample.photo RightTop) LeftBottom = Sample.photo.
Proof.
  assert (H : wf_image Sample.photo)
    by (apply wf_imageb_sound; reflexivity).
  split; [exact H|].
  exact (proj1 (rotate_undone_by_rotate Sample.photo RightTop H)).
Defined.

(* ================================================================== *)
(** ** Further properties of the item *)
(* ================================================================== *)

Lemma rotate_null o : rotate QImage_null o = QImage_null.
Proof. destruct o; reflexivity. Qed.

(** X5: after [setSource(src)] the [source()] accessor returns [src], and
    setting the same source again does nothing at all: the item is
    unchanged and nothing is emitted (the image is not decoded again). *)
Theorem setSource_again_is_noop
        (read : string -> QImage) (orient : string -> Orientation)
        (src : string) (s : Item) :
  let s1 := state_after (setSource read orient src) s in
  result_of source s1 = src
  /\ setSource read orient src s1 = (tt, s1, []).
Proof.
  cbv zeta.
  assert (E : m_source (state_after (setSource read orient src) s) = src).
  { unfold state_after, setSource, bind, get, modify, emit, call.
    destruct (String.eqb (m_source s) src) eqn:Es; simpl.
    - now apply String.eqb_eq.
    - destruct (Orientation_eqb (orient src) TopLeft); reflexivity. }
  split; [exact E|].
  unfold setSource at 1, bind, get.
  rewrite E, String.eqb_refl. reflexivity.
Qed.

(** X6: a source that cannot be decoded: the base image becomes the null
    image whatever the metadata says, the implicit size becomes 0 x 0,
    the two notifications are still emitted, and (no filtered buffer
    being present) the next render-node sync returns no node and leaves
    the item dirty. *)
Theorem setSource_decode_failure
        (read : string -> QImage) (orient : string -> Orientation)
        (src : string) (s : Item)
        (oldNode : option QSGSimpleTextureNode) :
  m_source s <> src ->
  read src = QImage_null ->
  isNull (m_filteredImage s) = true ->
  let s1 := state_after (setSource read orient src) s in
  m_image s1 = QImage_null
  /\ (implicitWidth s1, implicitHeight s1) = (0, 0)%Z
  /\ events_of (setSource read orient src) s
     = [sourceChanged src; imageChanged QImage_null; update]
  /\ updatePaintNode oldNode s1 = (None, s1, [])
  /\ m_imageChanged s1 = true.
Proof.
  intros Hne Hread Hf; apply String.eqb_neq in Hne.
  unfold state_after, events_of, setSource, updatePaintNode, paintedImage,
    bind, get, modify, emit, call.
  rewrite Hne, Hread; simpl.
  destruct (Orientation_eqb (orient src) TopLeft); simpl;
    rewrite ?rotate_null, Hf; simpl; repeat split; reflexivity.
Qed.

Lemma setSource_decode_failure_witness :
  m_source Sample.loaded <> "missing.png"
  /\ updatePaintNode None
       (state_after (setSource Sample.read Sample.orientation "missing.png")
                    Sample.loaded)
     = (None,
        state_after (setSource Sample.read Sample.orientation "missing.png")
                    Sample.loaded,
        []).
Proof.
  assert (H : m_source Sample.loaded <> "missing.png")
    by (simpl; discriminate).
  split; [exact H|].
  exact (proj1 (proj2 (proj2 (proj2
           (setSource_decode_failure Sample.read Sample.orientation
              "missing.png" Sample.loaded None H eq_refl eq_refl))))).
Defined.

(** X7: what is displayed after a load: the newly loaded image when no
    filtered buffer was present, but still the old filtered buffer when
    one was. *)
Theorem setSource_displayed
        (read : string -> QImage) (orient : string -> Orientation)
        (src : string) (s : Item) :
  m_source s <> src ->
  displayed (state_after (setSource read orient src) s)
  = if isNull (m_filteredImage s)
    then rotate (read src) (orient src)
    else m_filteredImage s.
Proof.
  intros Hne; apply String.eqb_neq in Hne.
  unfold displayed, result_of, image, state_after, setSource,
    bind, get, modify, emit, call.
  rewrite Hne; simpl.
  destruct (Orientation_eqb (orient src) TopLeft) eqn:E; simpl;
    destruct (isNull (m_filteredImage s)); try reflexivity.
  apply Orientation_eqb_eq in E; now rewrite E.
Qed.

Lemma setSource_displayed_witness :
  m_source Sample.busy <> "b.jpg"
  /\ displayed (state_after
                  (setSource Sample.read Sample.orientation "b.jpg")
                  Sample.busy)
     = Sample.sepia.
Proof.
  assert (H : m_source Sample.busy <> "b.jpg") by (simpl; discriminate).
  split; [exact H|].
  exact (setSource_displayed Sample.read Sample.orientation "b.jpg"
                             Sample.busy H).
Defined.

(** X8: [applyFilter(0)] detaches the filter: the item holds no filter and
    has dropped its connection to the previous one, the previous filter
    is not asked to reset its parameters, and the item is Idle, showing
    BaseImage. *)
Theorem applyFilter_null_detaches (s : Item) :
  let s1 := state_after (applyFilter None) s in
  m_filter s1 = None
  /\ connected s1
     = match m_filter s with
       | Some old => filter (fun q => negb (q =? filter_ptr old)) (connected s)
       | None => connected s
       end
  /\ events_of (applyFilter None) s
     = [imageChanged (m_image s); update]
       ++ (if m_isApplyingFilter s then [isApplyingFilterChanged false]
           else [])
  /\ Idle s1
  /\ m_image s1 = m_image s.
Proof.
  unfold Idle, displayed, result_of, image, state_after, events_of,
    applyFilter, resetFilter, bind, get, modify, call, emit, disconnect.
  destruct s as [src img fimg [old|] [|] chg iw ih conn]; simpl;
    repeat split; destruct (isNull img); reflexivity.
Qed.

(** What [filterApplied] does. *)
Lemma filterApplied_run img s :
  filterApplied img s =
  (tt,
   mkItem (m_source s) (m_image s) img (m_filter s) false true
          (implicitWidth s) (implicitHeight s) (connected s),
   [imageChanged img; update]
   ++ (if m_isApplyingFilter s then [isApplyingFilterChanged false]
       else [])).
Proof.
  unfold filterApplied, bind, get, modify, call, emit.
  destruct s as [src i fimg f [|] chg iw ih conn]; reflexivity.
Qed.

(** X9: a filter result can be taken back until it is committed: after
    [resetFilter] the item shows the untouched BaseImage again.  Once
    [applyCurrentFilter] has committed a (non-null) result, the result is
    the BaseImage, and [resetFilter] shows the result. *)
Theorem reset_before_and_after_commit (img : QImage) (s : Item) :
  let s1 := state_after (filterApplied img) s in
  let reset_only := state_after resetFilter s1 in
  let committed := state_after resetFilter
                     (state_after applyCurrentFilter s1) in
  m_image reset_only = m_image s
  /\ displayed reset_only = m_image s
  /\ m_image committed = (if isNull img then m_image s else img)
  /\ displayed committed = (if isNull img then m_image s else img).
Proof.
  unfold displayed, result_of, image, state_after, filterApplied,
    resetFilter, applyCurrentFilter, setIsApplyingFilter,
    bind, get, modify, call, emit.
  destruct s as [src base fimg [f|] [|] chg iw ih conn]; simpl;
    destruct (isNull img) eqn:E; simpl; rewrite ?E;
    repeat split; try reflexivity;
    destruct (isNull base); reflexivity.
Qed.


Lemma string_length_append (a b : string) :
  String.length (a ++ b) = String.length a + String.length b.
Proof. induction a; simpl; auto. Qed.

Lemma string_append_inj (a b t : string) :
  (a ++ t = b ++ t)%string -> a = b.
Proof.
  revert b; induction a as [|c a IH]; intros [|d b] H; simpl in *.
  - reflexivity.
  - apply (f_equal String.length) in H; simpl in H.
    rewrite string_length_append in H. lia.
  - apply (f_equal String.length) in H; simpl in H.
    rewrite string_length_append in H. lia.
  - injection H as -> H. f_equal. now apply IH.
Qed.

(** X11: saves made at different clock readings get different file names, so
    one does not overwrite the other. *)
Theorem saveImage_names_differ
        (pictures : string) (has1 mk1 has2 mk2 : bool)
        (now1 now2 : Z) (s1 s2 : Item) :
  now1 <> now2 ->
  filter is_imageSaved (events_of (saveImage pictures has1 mk1 now1) s1)
  <> filter is_imageSaved (events_of (saveImage pictures has2 mk2 now2) s2).
Proof.
  intros Hne E; apply Hne.
  assert (F : forall has mk now s,
             filter is_imageSaved
                    (events_of (saveImage pictures has mk now) s)
             = [imageSaved (QString_number now ++ ".jpg")]).
  { intros has mk now s.
    unfold saveImage, events_of, bind, get, call, emit.
    rewrite applyCurrentFilter_run; simpl. destruct has; reflexivity. }
  rewrite !F in E. injection E as E.
  apply string_append_inj in E.
  apply (f_equal integer_of_string) in E.
  rewrite !QString_number_reads_back in E. now injection E.
Qed.

Lemma saveImage_names_differ_witness :
  filter is_imageSaved
         (events_of (saveImage "/home/nemo/Pictures" true true 1414672000123)
                    Sample.busy)
  <> filter is_imageSaved
            (events_of
               (saveImage "/home/nemo/Pictures" true true 1414672000124)
               Sample.busy).
Proof.
  apply (saveImage_names_differ "/home/nemo/Pictures" true true true true
           1414672000123 1414672000124 Sample.busy Sample.busy).
  discriminate.
Defined.

(** X12: the render-node sync settles: when it yields a node, that node has a
    texture and the item is no longer dirty; when it yields none, the
    item is untouched (it stays dirty if it was).  Either way, a second
    sync with the node just returned gives that node back and changes
    nothing. *)
Theorem updatePaintNode_settles
        (oldNode : option QSGSimpleTextureNode) (s : Item) :
  let node := result_of (updatePaintNode oldNode) s in
  let s1 := state_after (updatePaintNode oldNode) s in
  match node with
  | Some n => texture n <> None /\ m_imageChanged s1 = false
  | None => s1 = s
  end
  /\ displayed s1 = displayed s
  /\ events_of (updatePaintNode oldNode) s = []
  /\ updatePaintNode node s1 = (node, s1, []).
Proof.
  unfold displayed, result_of, image, state_after, events_of,
    updatePaintNode, paintedImage, bind, get, modify.
  destruct s as [src base fimg f app chg iw ih conn]; simpl.
  destruct (isNull fimg) eqn:Ef, (isNull base) eqn:Eb, chg;
    try destruct oldNode as [[[t|] r d]|];
    repeat first [rewrite Ef | rewrite Eb | progress simpl];
    repeat split; (reflexivity || discriminate).
Qed.

(** What the emission of [filterApplied] by the filter [p] does: nothing
    when the item has no connection to [p]; otherwise the slot runs once
    per connection, and every run after the first only repeats the
    image-changed notification. *)
Lemma deliver_to_run conns p img s :
  deliver_to conns p img s =
  match length (filter (fun q => q =? p) conns) with
  | 0 => (tt, s, [])
  | S n =>
      (tt, state_after (filterApplied img) s,
       events_of (filterApplied img) s
       ++ concat (repeat [imageChanged img; update] n))
  end.
Proof.
  revert s; induction conns as [|q conns IH]; intros s; [reflexivity|].
  simpl deliver_to; simpl filter. unfold bind.
  destruct (q =? p); simpl.
  - rewrite filterApplied_run, IH.
    destruct (length (filter (fun q0 => q0 =? p) conns)) as [|n]; simpl.
    + unfold state_after, events_of; rewrite filterApplied_run; simpl.
      now rewrite !app_nil_r.
    + unfold state_after, events_of; rewrite !filterApplied_run; simpl.
      reflexivity.
  - rewrite IH.
    destruct (length (filter (fun q0 => q0 =? p) conns)); reflexivity.
Qed.

Lemma filter_emits_run p img s :
  filter_emits_filterApplied p img s
  = deliver_to (connected s) p img s.
Proof.
  unfold filter_emits_filterApplied, bind, get; simpl.
  destruct (deliver_to (connected s) p img s) as [[[] s'] e]; reflexivity.
Qed.

Ltac run_item :=
  unfold state_after, events_of, result_of, perform,
    setSource, applyFilter, reApplyFilter, saveImage, resetFilter,
    applyCurrentFilter, updatePaintNode, paintedImage, setIsApplyingFilter,
    connect, disconnect, bind, get, modify, call, emit, ret.

Ltac split_cases :=
  repeat match goal with
         | |- context [if ?b then _ else _] =>
             lazymatch b with
             | context [if _ then _ else _] => fail
             | _ => destruct b eqn:?; simpl
             end
         | |- context [match ?x with Some _ => _ | None => _ end] =>
             is_var x; destruct x; simpl
         | |- context [match ?x with [] => _ | _ :: _ => _ end] =>
             destruct x eqn:?; simpl
         end.

(** One call keeps the item connected to exactly the filter it holds. *)
Lemma perform_connection_invariant read orient pictures c s :
  connection_invariant s ->
  connection_invariant (state_after (perform read orient pictures c) s).
Proof.
  unfold connection_invariant; intros H.
  destruct c as [src| |f| | |has mk now|old|p img].
  - run_item. destruct s as [so base fimg flt app chg iw ih conn];
      simpl in *; split_cases; exact H.
  - run_item. destruct s as [so base fimg [flt|] [|] chg iw ih conn];
      simpl in *; exact H.
  - run_item. destruct s as [so base fimg [flt|] [|] chg iw ih conn];
      simpl in *; subst conn; destruct f as [f|]; simpl;
      rewrite ?Nat.eqb_refl; simpl; split_cases; reflexivity.
  - run_item. destruct s as [so base fimg [flt|] [|] chg iw ih conn];
      simpl in *; split_cases; exact H.
  - run_item. destruct s as [so base fimg flt app chg iw ih conn];
      simpl in *; split_cases; exact H.
  - run_item. destruct s as [so base fimg flt app chg iw ih conn];
      simpl in *; split_cases; exact H.
  - run_item. destruct s as [so base fimg flt app chg iw ih conn];
      simpl in *; split_cases; exact H.
  - unfold perform, state_after.
    rewrite filter_emits_run, deliver_to_run.
    destruct (length (filter (fun q => q =? p) (connected s))); simpl;
      [exact H|].
    unfold state_after; rewrite filterApplied_run; simpl. exact H.
Qed.

(** X15: whatever the host does with a newly constructed item, the item is
    connected exactly to the filter it holds, once, and to nothing when
    it holds none: replacing or detaching a filter never leaves a
    connection behind, and re-attaching one never doubles it. *)
Theorem item_listens_to_its_filter_only
        (read : string -> QImage) (orient : string -> Orientation)
        (pictures : string) (cs : list Call) :
  connection_invariant (run_calls read orient pictures cs FilteredImage_new).
Proof.
  assert (G : forall s, connection_invariant s ->
                        connection_invariant
                          (run_calls read orient pictures cs s)).
  { induction cs as [|c cs IH]; intros s H; simpl; [exact H|].
    apply IH. now apply perform_connection_invariant. }
  apply G. reflexivity.
Qed.

Ltac settle :=
  repeat first
    [ rewrite String.eqb_refl
    | rewrite Bool.eqb_reflx
    | progress simpl
    | match goal with
      | |- context [if negb ?c then _ else _] =>
          lazymatch c with
          | context [if _ then _ else _] => fail
          | _ => destruct c eqn:?
          end
      | |- context [if ?b then _ else _] =>
          lazymatch b with
          | context [if _ then _ else _] => fail
          | _ => destruct b eqn:?
          end
      | |- context [match ?x with [] => _ | _ :: _ => _ end] =>
          destruct x eqn:?
      end ].

(** X17: whenever a call makes the item announce a new image, the item has
    also marked itself dirty, so that the next render-node sync uploads
    a fresh texture. *)
Theorem imageChanged_marks_dirty
        (read : string -> QImage) (orient : string -> Orientation)
        (pictures : string) (c : Call) (s : Item) :
  existsb is_imageChanged (events_of (perform read orient pictures c) s)
  = true ->
  m_imageChanged (state_after (perform read orient pictures c) s) = true.
Proof.
  destruct c as [src| |f| | |has mk now|old|p img].
  1-7: run_item;
    destruct s as [so base fimg [flt|] [|] chg iw ih conn];
    try destruct f as [f|]; settle; try congruence; intros H;
    (reflexivity || discriminate H).
  unfold perform, state_after, events_of.
  rewrite filter_emits_run, deliver_to_run.
  destruct (length (filter (fun q => q =? p) (connected s))); simpl.
  - discriminate.
  - intros _. unfold state_after; rewrite filterApplied_run; reflexivity.
Qed.

Lemma imageChanged_marks_dirty_witness :
  m_imageChanged
    (state_after (perform Sample.read Sample.orientation "/home/nemo/Pictures"
                          call_resetFilter)
                 Sample.loaded)
  = true.
Proof.
  exact (imageChanged_marks_dirty
           Sample.read Sample.orientation "/home/nemo/Pictures"
           call_resetFilter Sample.loaded eq_refl).
Defined.

(** Only [setSource] touches the source and the implicit size. *)
Lemma perform_keeps_size read orient pictures c s :
  (forall src, c <> call_setSource src) ->
  let s1 := state_after (perform read orient pictures c) s in
  m_source s1 = m_source s
  /\ implicitWidth s1 = implicitWidth s
  /\ implicitHeight s1 = implicitHeight s.
Proof.
  intros Hc.
  destruct c as [src| |f| | |has mk now|old|p img];
    [now elim (Hc src)| .. ].
  1-6: run_item;
    destruct s as [so base fimg [flt|] [|] chg iw ih conn];
    try destruct f as [f|]; settle; repeat split; reflexivity.
  cbv zeta; unfold perform, state_after.
  rewrite filter_emits_run, deliver_to_run.
  destruct (length (filter (fun q => q =? p) (connected s))); simpl;
    [repeat split; reflexivity|].
  unfold state_after; rewrite filterApplied_run; simpl.
  repeat split; reflexivity.
Qed.


(** How one call moves the source and the implicit size: [loaded] tells
    whether a picture was ever loaded. *)
Lemma perform_size_step read orient pictures c s (loaded : bool) :
  (if loaded
   then (implicitWidth s, implicitHeight s)
        = decoded_size read orient (m_source s)
   else m_source s = "" /\ (implicitWidth s, implicitHeight s) = (0, 0)%Z) ->
  let s1 := state_after (perform read orient pictures c) s in
  m_source s1 = match c with
                | call_setSource src => src
                | _ => m_source s
                end
  /\ (if loaded || is_load c
      then (implicitWidth s1, implicitHeight s1)
           = decoded_size read orient (m_source s1)
      else m_source s1 = ""
           /\ (implicitWidth s1, implicitHeight s1) = (0, 0)%Z).
Proof.
  intros H.
  destruct c as [src| | | | | | | ];
    [| match goal with
       | |- let _ := state_after (perform _ _ _ ?c) _ in _ =>
           destruct (perform_keeps_size read orient pictures c s)
             as (E1 & E2 & E3); [discriminate|];
           cbv zeta; rewrite E1, E2, E3, orb_false_r;
           split; [reflexivity | exact H]
       end ..].
  cbv zeta; unfold decoded_size in *; simpl is_load.
  unfold state_after, perform, setSource, bind, get, modify, emit, call.
  destruct s as [so base fimg flt app chg iw ih conn]; simpl in *.
  destruct (String.eqb_spec so src) as [->|Hne]; simpl.
  - split; [reflexivity|].
    destruct loaded; simpl; [exact H|].
    destruct H as [-> H]; simpl. split; [reflexivity | exact H].
  - assert (L : loaded || negb (String.eqb src "") = true).
    { destruct loaded; [reflexivity|]. simpl.
      destruct H as [-> _].
      destruct (String.eqb_spec src ""); [congruence | reflexivity]. }
    rewrite L.
    destruct (Orientation_eqb (orient src) TopLeft) eqn:Eo; simpl;
      split; try reflexivity.
    apply Orientation_eqb_eq in Eo; now rewrite Eo.
Qed.

(** X19: whatever the host does with a newly constructed item, its source
    is the string of the last [setSource], and its implicit size is
    0 x 0 as long as no picture was loaded and from then on the pixel
    size of the orientation-corrected decode of that source: loading
    sets it, always, and nothing else touches it.  Receiving, committing
    or saving a filter result never resizes the item, also when the
    result has other dimensions than the loaded image. *)
Theorem implicit_size_follows_source_only
        (read : string -> QImage) (orient : string -> Orientation)
        (pictures : string) (dirty : bool) (cs : list Call) :
  let s := run_calls read orient pictures cs
                     (set_m_imageChanged dirty FilteredImage_new) in
  m_source s = last_source cs
  /\ (implicitWidth s, implicitHeight s)
     = (if existsb is_load cs
        then decoded_size read orient (last_source cs)
        else (0, 0)%Z).
Proof.
  assert (G : forall (s : Item) (loaded : bool),
             (if loaded
              then (implicitWidth s, implicitHeight s)
                   = decoded_size read orient (m_source s)
              else m_source s = ""
                   /\ (implicitWidth s, implicitHeight s) = (0, 0)%Z) ->
             let s1 := run_calls read orient pictures cs s in
             m_source s1
             = fold_left (fun acc c => match c with
                                       | call_setSource src => src
                                       | _ => acc
                                       end) cs (m_source s)
             /\ (if loaded || existsb is_load cs
                 then (implicitWidth s1, implicitHeight s1)
                      = decoded_size read orient (m_source s1)
                 else m_source s1 = ""
                      /\ (implicitWidth s1, implicitHeight s1)
                         = (0, 0)%Z)).
  { induction cs as [|c cs IH]; intros s loaded H; simpl.
    - rewrite orb_false_r. split; [reflexivity | exact H].
    - destruct (perform_size_step read orient pictures c s loaded H)
        as [Es Hs].
      specialize (IH _ _ Hs). cbv zeta in IH. rewrite Es in IH.
      rewrite orb_assoc. exact IH. }
  specialize (G (set_m_imageChanged dirty FilteredImage_new) false
                (conj eq_refl eq_refl)).
  cbv zeta in *. simpl orb in G. destruct G as [Es Hs].
  split; [exact Es|].
  destruct (existsb is_load cs).
  - rewrite Hs. unfold last_source; now rewrite Es.
  - exact (proj2 Hs).
Qed.

Lemma run_calls_connection_invariant read orient pictures cs s :
  connection_invariant s ->
  connection_invariant (run_calls read orient pictures cs s).
Proof.
  revert s; induction cs as [|c cs IH]; intros s H; simpl; [exact H|].
  apply IH. now apply perform_connection_invariant.
Qed.

Lemma applyFilter_sets_filter fo s :
  m_filter (state_after (applyFilter fo) s) = fo.
Proof.
  run_item.
  destruct s as [so base fimg [flt|] [|] chg iw ih conn];
    destruct fo as [f|]; simpl; try reflexivity;
    destruct (parameterList f); simpl; try reflexivity;
    destruct (filter_applyFilter f base); reflexivity.
Qed.

(** X14: once [applyFilter] has replaced or detached the item's filter,
    the item no longer hears the previous one: whatever happened to the
    item before, after [applyFilter(filter)] a [filterApplied] signal
    from any filter other than [filter] (from any filter at all, when
    [filter] is null) leaves the item as it is and makes it emit
    nothing.  A result that a replaced filter emits late is not written
    to FilteredImage. *)
Theorem replaced_filter_is_no_longer_heard
        (read : string -> QImage) (orient : string -> Orientation)
        (pictures : string) (dirty : bool) (cs : list Call)
        (filter : option AbstractImageFilter) (p : nat) (img : QImage) :
  option_map filter_ptr filter <> Some p ->
  let s := state_after (applyFilter filter)
             (run_calls read orient pictures cs
                        (set_m_imageChanged dirty FilteredImage_new)) in
  filter_emits_filterApplied p img s = (tt, s, []).
Proof.
  intros Hp; cbv zeta.
  set (s0 := run_calls read orient pictures cs
                       (set_m_imageChanged dirty FilteredImage_new)).
  assert (H0 : connection_invariant s0)
    by (apply run_calls_connection_invariant; reflexivity).
  pose proof (perform_connection_invariant read orient pictures
                (call_applyFilter filter) s0 H0) as H1.
  simpl perform in H1. unfold connection_invariant in H1.
  rewrite filter_emits_run, deliver_to_run, H1, applyFilter_sets_filter.
  destruct filter as [f|]; simpl; [|reflexivity].
  destruct (Nat.eqb_spec (filter_ptr f) p) as [E|_]; [|reflexivity].
  elim Hp; simpl; now rewrite E.
Qed.

Lemma replaced_filter_is_no_longer_heard_witness :
  let s := state_after (applyFilter (Some Sample.declining))
             (run_calls Sample.read Sample.orientation "/home/nemo/Pictures"
                        [call_setSource "a.jpg";
                         call_applyFilter (Some Sample.accepting)]
                        (set_m_imageChanged false FilteredImage_new)) in
  filter_emits_filterApplied 2 Sample.sepia s = (tt, s, []).
Proof.
  apply (replaced_filter_is_no_longer_heard
           Sample.read Sample.orientation "/home/nemo/Pictures" false
           [call_setSource "a.jpg"; call_applyFilter (Some Sample.accepting)]
           (Some Sample.declining) 2 Sample.sepia).
  simpl; discriminate.
Defined.

(* ================================================================== *)
(** ** Filters that reply from inside the call: properties *)
(* ================================================================== *)

(** With filters that reply later, the two member functions are the ones
    described before. *)
Lemma Reentrant_applyFilter_later emits filter s :
  (forall f image, emits f image = []) ->
  Reentrant.applyFilter emits filter s = applyFilter filter s.
Proof.
  intros H.
  unfold Reentrant.applyFilter, Reentrant.filter_call, applyFilter,
    bind, get, modify, call, connect, disconnect.
  destruct s as [so base fimg [flt|] app chg iw ih conn];
    destruct filter as [f|]; simpl; try reflexivity;
    destruct (parameterList f); simpl; try reflexivity;
    rewrite H; simpl;
    destruct (filter_applyFilter f base); reflexivity.
Qed.

Lemma Reentrant_reApplyFilter_later emits s :
  (forall f image, emits f image = []) ->
  Reentrant.reApplyFilter emits s = reApplyFilter s.
Proof.
  intros H.
  unfold Reentrant.reApplyFilter, Reentrant.filter_call, reApplyFilter,
    bind, get, modify, call.
  destruct s as [so base fimg [f|] app chg iw ih conn]; simpl;
    try reflexivity.
  rewrite H; simpl. destruct (filter_applyFilter f base); reflexivity.
Qed.

Lemma Reentrant_perform_later emits read orient pictures c s :
  (forall f image, emits f image = []) ->
  Reentrant.perform emits read orient pictures c s
  = perform read orient pictures c s.
Proof.
  intros H; destruct c; simpl; try reflexivity.
  - now apply Reentrant_applyFilter_later.
  - now apply Reentrant_reApplyFilter_later.
Qed.

Lemma last_cons {V : Type} (v d : V) (r : list V) :
  last (v :: r) d = last r v.
Proof.
  revert v d; induction r as [|w r IH]; intros v d; [reflexivity|].
  change (last (v :: w :: r) d) with (last (w :: r) d).
  now rewrite (IH w d), (IH w v).
Qed.

Lemma reports_app {V : Type} (eqb : V -> V -> bool)
      (v0 v1 v2 : V) (vs ws : list V) :
  reports eqb v0 vs v1 -> reports eqb v1 ws v2 ->
  reports eqb v0 (vs ++ ws) v2.
Proof.
  unfold reports; revert v0; induction vs as [|v vs IH]; intros v0.
  - simpl; intros [_ ->] H; exact H.
  - rewrite last_cons. simpl each_is_a_change.
    intros [H1 E1] H2. apply andb_true_iff in H1 as [Hv Hvs].
    destruct (IH v (conj Hvs E1) H2) as [H3 E3].
    simpl app. rewrite last_cons. simpl each_is_a_change.
    rewrite Hv, H3. split; [reflexivity | exact E3].
Qed.

Lemma tracks_bind {A B : Type} (m : M A) (k : A -> M B) :
  tracks m -> (forall a, tracks (k a)) -> tracks (bind m k).
Proof.
  unfold tracks, state_after, events_of, bind; intros Hm Hk s.
  specialize (Hm s). destruct (m s) as [[a s1] e1]; simpl in Hm.
  specialize (Hk a s1). destruct (k a s1) as [[b s2] e2]; simpl in *.
  unfold flag_notifications, source_notifications in *.
  rewrite !flat_map_app.
  split; eapply reports_app; (apply Hm || apply Hk).
Qed.

Lemma tracks_ret {A : Type} (a : A) : tracks (ret a).
Proof. intros s; split; split; reflexivity. Qed.

Lemma tracks_get : tracks get.
Proof. intros s; split; split; reflexivity. Qed.

Lemma tracks_modify (f : Item -> Item) :
  (forall s, m_isApplyingFilter (f s) = m_isApplyingFilter s
             /\ m_source (f s) = m_source s) ->
  tracks (modify f).
Proof.
  intros H s; unfold state_after, events_of, modify; simpl.
  destruct (H s) as [-> ->]. split; split; reflexivity.
Qed.

Lemma tracks_call (e : Event) :
  flag_notifications [e] = [] -> source_notifications [e] = [] ->
  tracks (call e).
Proof.
  intros H1 H2 s; unfold state_after, events_of, call; simpl fst; simpl snd.
  rewrite H1, H2. split; split; reflexivity.
Qed.

Lemma tracks_setIsApplyingFilter (value : bool) :
  tracks (setIsApplyingFilter value).
Proof.
  intros s.
  unfold state_after, events_of, setIsApplyingFilter,
    bind, get, modify, emit, call.
  destruct s as [so base fimg flt [|] chg iw ih conn], value; simpl;
    split; split; simpl; rewrite ?String.eqb_refl; reflexivity.
Qed.

Lemma tracks_setSource read orient src : tracks (setSource read orient src).
Proof.
  intros s.
  unfold state_after, events_of, setSource, bind, get, modify, emit, call.
  destruct s as [so base fimg flt app chg iw ih conn]; simpl.
  destruct (String.eqb so src) eqn:E; simpl.
  - split; split; reflexivity.
  - destruct (Orientation_eqb (orient src) TopLeft); simpl;
      split; split; simpl; rewrite ?E; reflexivity.
Qed.

Ltac track_by known :=
  repeat first
    [ known
    | apply tracks_ret
    | apply tracks_get
    | apply tracks_setIsApplyingFilter
    | apply tracks_modify; intros; split; reflexivity
    | apply tracks_call; reflexivity
    | apply tracks_bind; [|intros ?]
    | progress (unfold emit, connect, disconnect; cbv beta iota zeta)
    | match goal with
      | |- tracks (match ?x with _ => _ end) => destruct x
      end ].

Ltac track := track_by fail.

Lemma tracks_filterApplied img : tracks (filterApplied img).
Proof. unfold filterApplied; track. Qed.

Lemma tracks_deliver_to conns p img : tracks (deliver_to conns p img).
Proof.
  induction conns as [|q conns IH]; simpl;
    track_by ltac:(first [apply tracks_filterApplied | exact IH]).
Qed.

Lemma tracks_filter_emits p img : tracks (filter_emits_filterApplied p img).
Proof.
  unfold filter_emits_filterApplied;
    track_by ltac:(apply tracks_deliver_to).
Qed.

Lemma tracks_signal_all p imgs : tracks (Reentrant.signal_all p imgs).
Proof.
  induction imgs as [|img imgs IH]; simpl;
    track_by ltac:(first [apply tracks_filter_emits | exact IH]).
Qed.

Lemma tracks_filter_call emits f img :
  tracks (Reentrant.filter_call emits f img).
Proof.
  unfold Reentrant.filter_call; track_by ltac:(apply tracks_signal_all).
Qed.

Lemma tracks_resetFilter : tracks resetFilter.
Proof. unfold resetFilter; track. Qed.

Lemma tracks_applyCurrentFilter : tracks applyCurrentFilter.
Proof. unfold applyCurrentFilter; track. Qed.

Lemma tracks_perform emits read orient pictures c :
  tracks (Reentrant.perform emits read orient pictures c).
Proof.
  destruct c; simpl.
  - apply tracks_setSource.
  - apply tracks_resetFilter.
  - unfold Reentrant.applyFilter;
      track_by ltac:(first [apply tracks_resetFilter
                           | apply tracks_filter_call]).
  - unfold Reentrant.reApplyFilter;
      track_by ltac:(apply tracks_filter_call).
  - apply tracks_applyCurrentFilter.
  - unfold saveImage; track_by ltac:(apply tracks_applyCurrentFilter).
  - unfold updatePaintNode; track.
  - apply tracks_filter_emits.
Qed.

(** X16: the change notifications of the two properties [source] and
    [isApplyingFilter] tell the truth, whatever the host calls, whatever
    a filter signals and whether filters reply inside the call or later:
    among the notifications of one call, each carries a value different
    from the value before it (the first, from the value before the
    call), and the last carries the value the property has after the
    call; when none is emitted the property has not changed. *)
Theorem change_notifications_are_exact
        (emits_inside : AbstractImageFilter -> QImage -> list QImage)
        (read : string -> QImage) (orient : string -> Orientation)
        (pictures : string) (c : Call) (s : Item) :
  let m := Reentrant.perform emits_inside read orient pictures c in
  each_is_a_change Bool.eqb (m_isApplyingFilter s)
                   (flag_notifications (events_of m s)) = true
  /\ m_isApplyingFilter (state_after m s)
     = last (flag_notifications (events_of m s)) (m_isApplyingFilter s)
  /\ each_is_a_change String.eqb (m_source s)
                      (source_notifications (events_of m s)) = true
  /\ m_source (state_after m s)
     = last (source_notifications (events_of m s)) (m_source s).
Proof.
  destruct (tracks_perform emits_inside read orient pictures c s)
    as [[H1 H2] [H3 H4]].
  repeat split; assumption.
Qed.

(** A filter the item is connected to once signals several results in
    a row: the slot runs once for each, the last image stays. *)
Lemma signal_all_once p imgs s :
  connected s = [p] ->
  Reentrant.signal_all p imgs s =
  match imgs with
  | [] => (tt, s, [])
  | first :: rest =>
      (tt,
       mkItem (m_source s) (m_image s) (last rest first) (m_filter s)
              false true (implicitWidth s) (implicitHeight s) (connected s),
       [imageChanged first; update]
       ++ (if m_isApplyingFilter s then [isApplyingFilterChanged false]
           else [])
       ++ concat (map (fun i => [imageChanged i; update]) rest))
  end.
Proof.
  revert s; induction imgs as [|img imgs IH]; intros s H; [reflexivity|].
  simpl Reentrant.signal_all. unfold bind.
  rewrite filter_emits_run, deliver_to_run, H; simpl.
  rewrite Nat.eqb_refl; simpl.
  unfold state_after, events_of; rewrite filterApplied_run; simpl.
  rewrite IH by (simpl; exact H).
  destruct imgs as [|j r]; simpl.
  - rewrite !app_nil_r, ?H. reflexivity.
  - change (match r with [] => j | _ :: _ => last r img end)
      with (last (j :: r) img).
    rewrite last_cons, !app_nil_r, ?H. reflexivity.
Qed.

(** X18: applying a filter without parameters that accepts, on an item
    connected to the filter it holds.  If the filter replies later: the
    request carries BaseImage, ApplyingFlag is raised (notified only if
    it was down) and the displayed buffer does not change; when the
    filter then signals its result, the slot runs once, the result is
    the filtered buffer, ApplyingFlag is down again, and the item shows
    the result, or BaseImage if the result is a null image.  If the
    filter replies from inside the call: the slot runs during the call
    and stores the (last) result, which the item shows, and only then is
    ApplyingFlag raised, so that the item is left applying although the
    result has arrived. *)
Theorem applyFilter_accepted_then_result
        (emits_inside : AbstractImageFilter -> QImage -> list QImage)
        (f : AbstractImageFilter) (img : QImage) (s : Item) :
  connection_invariant s ->
  parameterList f = [] ->
  filter_applyFilter f (m_image s) = true ->
  let s1 := state_after (Reentrant.applyFilter emits_inside (Some f)) s in
  let events := events_of (Reentrant.applyFilter emits_inside (Some f)) s in
  match emits_inside f (m_image s) with
  | [] =>
      let s2 := state_after (filter_emits_filterApplied (filter_ptr f) img)
                            s1 in
      events
      = applyFilterRequest (filter_ptr f) (m_image s)
        :: (if m_isApplyingFilter s then []
            else [isApplyingFilterChanged true])
      /\ m_isApplyingFilter s1 = true
      /\ displayed s1 = displayed s
      /\ events_of (filter_emits_filterApplied (filter_ptr f) img) s1
         = [imageChanged img; update; isApplyingFilterChanged false]
      /\ m_isApplyingFilter s2 = false
      /\ m_filteredImage s2 = img
      /\ m_image s2 = m_image s
      /\ displayed s2 = (if isNull img then m_image s else img)
  | first :: rest =>
      let result := last rest first in
      events
      = [applyFilterRequest (filter_ptr f) (m_image s);
         imageChanged first; update]
        ++ (if m_isApplyingFilter s then [isApplyingFilterChanged false]
            else [])
        ++ concat (map (fun i => [imageChanged i; update]) rest)
        ++ [isApplyingFilterChanged true]
      /\ m_filteredImage s1 = result
      /\ m_image s1 = m_image s
      /\ displayed s1 = (if isNull result then m_image s else result)
      /\ m_imageChanged s1 = true
      /\ m_isApplyingFilter s1 = true
  end.
Proof.
  unfold connection_invariant; intros Hc Hp Ha.
  destruct s as [so base fimg flt app chg iw ih conn];
    simpl in Hc, Ha; subst conn. cbv zeta.
  unfold displayed, result_of, image, state_after, events_of,
    Reentrant.applyFilter, Reentrant.filter_call, filter_emits_filterApplied,
    bind, get, modify, call, connect, disconnect.
  remember (emits_inside f base) as imgs eqn:Ei.
  simpl. rewrite Hp.
  destruct flt as [old|]; simpl; rewrite ?Nat.eqb_refl; simpl;
    rewrite <- ?Ei; rewrite signal_all_once by reflexivity;
    destruct imgs as [|first rest]; simpl; rewrite Ha;
    unfold filterApplied, setIsApplyingFilter, bind, get, modify, emit, call;
    destruct app; simpl; rewrite ?Nat.eqb_refl; simpl;
    repeat split; try reflexivity;
    try (destruct (isNull img); reflexivity);
    try (destruct (isNull (last rest first)); reflexivity);
    rewrite <- ?app_assoc; reflexivity.
Qed.

Lemma applyFilter_accepted_then_result_witness :
  connection_invariant Sample.loaded
  /\ displayed
       (state_after (filter_emits_filterApplied 2 Sample.sepia)
                    (state_after
                       (Reentrant.applyFilter SyncSample.later
                                              (Some Sample.accepting))
                       Sample.loaded))
     = Sample.sepia
  /\ m_isApplyingFilter
       (state_after
          (Reentrant.applyFilter SyncSample.emits_inside
                                 (Some Sample.accepting))
          Sample.loaded)
     = true.
Proof.
  split; [reflexivity|]. split.
  - pose proof (applyFilter_accepted_then_result
                  SyncSample.later Sample.accepting Sample.sepia
                  Sample.loaded eq_refl eq_refl eq_refl) as H.
    simpl in H. repeat (apply proj2 in H). exact H.
  - pose proof (applyFilter_accepted_then_result
                  SyncSample.emits_inside Sample.accepting Sample.sepia
                  Sample.loaded eq_refl eq_refl eq_refl) as H.
    simpl in H. repeat (apply proj2 in H). exact H.
Defined.

(** X13: [reApplyFilter] on an item connected to the filter it holds.
    Without a filter it does nothing.  With one, the request goes to
    that filter and carries BaseImage, also while a filtered buffer is
    displayed (results do not stack until they are committed), and
    BaseImage and the filter reference are never touched.  If the filter
    replies later, the only thing that can change is ApplyingFlag,
    raised when the filter accepts.  If it replies from inside the call,
    the slot stores the (last) result and marks the item dirty before
    the flag is set, so ApplyingFlag ends up being whether the filter
    accepted. *)
Theorem reApplyFilter_requests_base_image
        (emits_inside : AbstractImageFilter -> QImage -> list QImage)
        (s : Item) :
  connection_invariant s ->
  let s1 := state_after (Reentrant.reApplyFilter emits_inside) s in
  let events := events_of (Reentrant.reApplyFilter emits_inside) s in
  match m_filter s with
  | None => Reentrant.reApplyFilter emits_inside s = (tt, s, [])
  | Some f =>
      filter (fun e => negb (is_notification e || is_update e)) events
      = [applyFilterRequest (filter_ptr f) (m_image s)]
      /\ m_image s1 = m_image s
      /\ m_filter s1 = m_filter s
      /\ match emits_inside f (m_image s) with
         | [] =>
             s1 = set_m_isApplyingFilter
                    (m_isApplyingFilter s || filter_applyFilter f (m_image s))
                    s
             /\ displayed s1 = displayed s
         | first :: rest =>
             m_filteredImage s1 = last rest first
             /\ m_imageChanged s1 = true
             /\ m_isApplyingFilter s1 = filter_applyFilter f (m_image s)
         end
  end.
Proof.
  unfold connection_invariant; intros Hc.
  destruct s as [so base fimg [f|] app chg iw ih conn];
    simpl in Hc; subst conn; cbv zeta; [|reflexivity].
  unfold displayed, result_of, image, state_after, events_of,
    Reentrant.reApplyFilter, Reentrant.filter_call,
    bind, get, modify, call.
  remember (emits_inside f base) as imgs eqn:Ei.
  simpl. rewrite <- ?Ei.
  rewrite signal_all_once by reflexivity.
  assert (F : forall l : list QImage,
             filter (fun e => negb (is_notification e || is_update e))
                    (concat (map (fun i => [imageChanged i; update]) l))
             = []).
  { induction l; simpl; auto. }
  destruct imgs as [|first rest]; simpl;
    unfold setIsApplyingFilter, bind, get, modify, emit, call;
    destruct (filter_applyFilter f base), app; simpl;
    rewrite ?filter_app, ?F; simpl; repeat split; reflexivity.
Qed.

Lemma reApplyFilter_requests_base_image_witness :
  connection_invariant Sample.busy
  /\ m_image (state_after (Reentrant.reApplyFilter SyncSample.emits_inside)
                          Sample.busy)
     = Sample.photo.
Proof.
  split; [reflexivity|].
  pose proof (reApplyFilter_requests_base_image
                SyncSample.emits_inside Sample.busy eq_refl) as H.
  simpl in H. exact (proj1 (proj2 H)).
Defined.

(** A filter that replies from inside the call, attached to an item that
    is applying: the flag goes down and up again within the one call. *)
Example applyFilter_replying_inside :
  flag_notifications
    (events_of (Reentrant.applyFilter SyncSample.emits_inside
                                      (Some Sample.accepting))
               Sample.busy)
  = [false; true]
  /\ m_isApplyingFilter
       (state_after (Reentrant.applyFilter SyncSample.emits_inside
                                           (Some Sample.accepting))
                    Sample.busy)
     = true.
Proof. split; reflexivity. Qed.
